(** * PageRank: the transition model, the sampling estimator and the
      iterative estimator of [pagerank.py]

    Conventions of the embedding.

    - A page is a [string].  A Python [dict] is an insertion-ordered
      association list without repeated keys; a Python [set] of pages is a
      list without repetition (only [len], [in] and iteration are used on it).
    - Python floats are modelled as exact rationals [Q]; [float(...)] is the
      identity and the threshold [0.001] is [1 # 1000].  Rounding is left
      out.  It changes what the code does in kind only at the edges: with
      a damping factor so close to 1 that rounding outweighs what a pass of
      [iterate_pagerank] gains, and with one so large that the weights of
      [transition_model] cancel.  Where that matters, a theorem carries a
      bound on the damping factor as a hypothesis.
    - Python exceptions are values of [exn]; a computation that may raise
      returns [res A].
    - [random.random()] is an explicit source [rng : nat -> Q]: the t-th call
      returns [rng t].
    - [while True] is run with fuel: [None] means that the loop is still
      running when the fuel is used up. *)

From Stdlib Require Import List String ZArith QArith Qabs Qround Lia Lqa Bool
  Permutation Ascii.
Import ListNotations.
Local Open Scope Q_scope.

(** ** Exceptions *)

Module Py.

Inductive exn : Type :=
| KeyError
| ZeroDivisionError
| IndexError
| ValueError
| OSError
| UnicodeDecodeError.

Inductive res (A : Type) : Type :=
| Ok (a : A)
| Raise (e : exn).
Arguments Ok {A} a.
Arguments Raise {A} e.

Definition bind {A B : Type} (m : res A) (k : A -> res B) : res B :=
  match m with
  | Ok a => k a
  | Raise e => Raise e
  end.

(** [for x in xs: acc = body(acc, x)], where the body may raise. *)
Fixpoint for_each {A S : Type} (xs : list A) (body : S -> A -> res S) (acc : S)
  : res S :=
  match xs with
  | [] => Ok acc
  | x :: rest => bind (body acc x) (for_each rest body)
  end.

(** True division by an integer: [a / n]. *)
Definition truediv (a : Q) (n : Z) : res Q :=
  if (n =? 0)%Z then Raise ZeroDivisionError else Ok (a / inject_Z n).

End Py.
Export Py.

Notation "x <- m ;; k" := (bind m (fun x => k))
  (at level 61, m at next level, right associativity).

(** ** Dictionaries *)

Module Dict.

Definition dict (V : Type) : Type := list (string * V).

Definition keys {V : Type} (d : dict V) : list string := map fst d.
Definition values {V : Type} (d : dict V) : list V := map snd d.

Fixpoint get {V : Type} (d : dict V) (k : string) : option V :=
  match d with
  | [] => None
  | (k', v) :: rest => if String.eqb k' k then Some v else get rest k
  end.

(** [d[k]] *)
Definition getitem {V : Type} (d : dict V) (k : string) : res V :=
  match get d k with
  | Some v => Ok v
  | None => Raise KeyError
  end.

(** [d[k] = v]: an existing key keeps its place, a new key goes last. *)
Fixpoint setitem {V : Type} (d : dict V) (k : string) (v : V) : dict V :=
  match d with
  | [] => [(k, v)]
  | (k', v') :: rest =>
      if String.eqb k' k then (k', v) :: rest else (k', v') :: setitem rest k v
  end.

(** [len(d)], a Python integer. *)
Definition len {A : Type} (l : list A) : Z := Z.of_nat (List.length l).

(** [p in s] for a set of pages. *)
Definition mem (p : string) (s : list string) : bool :=
  existsb (String.eqb p) s.

End Dict.
Export Dict.

(** ** The link graph *)

Definition Corpus : Type := dict (list string).

Fixpoint nodupb (l : list string) : bool :=
  match l with
  | [] => true
  | x :: rest => negb (mem x rest) && nodupb rest
  end.

(** What the Python types give: no key occurs twice in the dict and no page
    occurs twice in a link set. *)
Definition is_dict (corpus : Corpus) : bool :=
  nodupb (keys corpus) && forallb nodupb (values corpus).

(** The invariant of the graph: every link points into the universe. *)
Definition closed (corpus : Corpus) : bool :=
  forallb (fun links => forallb (fun p => mem p (keys corpus)) links)
          (values corpus).

Definition well_formed (corpus : Corpus) : bool :=
  is_dict corpus && closed corpus.

(** ** transition_model *)

Definition transition_model (corpus : Corpus) (page : string)
  (damping_factor : Q) : res (dict Q) :=
  links <- getitem corpus page ;;
  if (len links =? 0)%Z then
    prob <- truediv 1 (len corpus) ;;
    for_each (keys corpus) (fun result p => Ok (setitem result p prob)) []
  else
    result <- for_each (keys corpus)
                (fun result p =>
                   prob <- truediv (1 - damping_factor) (len corpus) ;;
                   Ok (setitem result p prob)) [] ;;
    prob <- truediv damping_factor (len links) ;;
    for_each links
      (fun result p =>
         v <- getitem result p ;;
         Ok (setitem result p (v + prob))) result.

(** ** random.choices

    [random.choices(population, weights=w, k=1)[0]] as CPython computes it:
    the running sums of the weights, one call of [random()], and a binary
    search ([bisect_right] between [0] and [len(population) - 1]) for the
    draw scaled by the total weight.  [u] is the value returned by that one
    call of [random()].  A rational total is always finite, so the check
    [isfinite(total)] has no counterpart. *)

Fixpoint accumulate_from (acc : Q) (ws : list Q) : list Q :=
  match ws with
  | [] => []
  | w :: rest => (acc + w) :: accumulate_from (acc + w) rest
  end.

Definition accumulate (ws : list Q) : list Q :=
  match ws with
  | [] => []
  | w :: rest => w :: accumulate_from w rest
  end.

(** [x < y] on rationals, as a boolean. *)
Definition Qltb (x y : Q) : bool := negb (Qle_bool y x).

(** [bisect_right(a, x, lo, hi)]: the loop [while lo < hi] halves the
    interval, so [hi - lo] rounds of fuel are enough. *)
Fixpoint bisect_right (fuel : nat) (a : list Q) (x : Q) (lo hi : nat) : nat :=
  match fuel with
  | O => lo
  | S fuel' =>
      if (lo <? hi)%nat then
        let mid := ((lo + hi) / 2)%nat in
        if Qltb x (nth mid a 0) then bisect_right fuel' a x lo mid
        else bisect_right fuel' a x (mid + 1) hi
      else lo
  end.

Definition choices (population : list string) (weights : list Q) (u : Q)
  : res string :=
  let n := List.length population in
  let cum_weights := accumulate weights in
  if negb (List.length cum_weights =? n)%nat then Raise ValueError
  else
    match rev cum_weights with
    | [] => Raise IndexError
    | last :: _ =>
        let total := last + 0 in
        if Qle_bool total 0 then Raise ValueError
        else
          let hi := (n - 1)%nat in
          match nth_error population
                  (bisect_right hi cum_weights (u * total) 0 hi) with
          | Some p => Ok p
          | None => Raise IndexError
          end
    end.

(** ** sample_pagerank *)

(** The first loop: every counter at [0], every first weight at [1]. *)
Definition sample_init (corpus : Corpus) : dict Z * dict Q :=
  fold_left
    (fun (st : dict Z * dict Q) p =>
       (setitem (fst st) p 0%Z, setitem (snd st) p 1))
    (keys corpus) ([], []).

(** One round of the sampling loop; [t] is the number of the round, which
    is also the number of the call of [random()]. *)
Definition sample_step (corpus : Corpus) (damping_factor : Q)
  (rng : nat -> Q) (st : dict Z * dict Q) (t : nat) : res (dict Z * dict Q) :=
  current_page <- choices (keys corpus) (values (snd st)) (rng t) ;;
  c <- getitem (fst st) current_page ;;
  t_model <- transition_model corpus current_page damping_factor ;;
  Ok (setitem (fst st) current_page (c + 1)%Z, t_model).

(** The last loop, [result[p] /= n] for every key, in the order of the
    keys; the counters are integers and the quotients are floats, so the
    model writes the quotients to a dict of their own. *)
Definition normalise (counts : dict Z) (n : Z) : res (dict Q) :=
  for_each (keys counts)
    (fun out p =>
       c <- getitem counts p ;;
       q <- truediv (inject_Z c) n ;;
       Ok (setitem out p q)) [].

Definition sample_pagerank (corpus : Corpus) (damping_factor : Q) (n : Z)
  (rng : nat -> Q) : res (dict Q) :=
  st <- for_each (seq 0 (Z.to_nat n))
          (sample_step corpus damping_factor rng) (sample_init corpus) ;;
  normalise (fst st) n.

(** ** iterate_pagerank *)

(** The inner loop over [linker]. *)
Definition sigma_step (corpus : Corpus) (result : dict Q) (page : string)
  (sigma : Q) (linker : string) : res Q :=
  links <- getitem corpus linker ;;
  if (len links =? 0)%Z then
    r <- getitem result linker ;;
    q <- truediv r (len corpus) ;;
    Ok (sigma + q)
  else if mem page links then
    r <- getitem result linker ;;
    q <- truediv r (len links) ;;
    Ok (sigma + q)
  else Ok sigma.

(** The body of [for page in result]; the state is the dict [result],
    updated in place, and the flag [go]. *)
Definition page_step (corpus : Corpus) (damping_factor : Q) (N : Z)
  (st : dict Q * bool) (page : string) : res (dict Q * bool) :=
  sigma <- for_each (keys corpus) (sigma_step corpus (fst st) page) 0 ;;
  base <- truediv (1 - damping_factor) N ;;
  let new_result := base + damping_factor * sigma in
  old <- getitem (fst st) page ;;
  let go := if Qltb (1 # 1000) (Qabs (new_result - old)) then true
            else snd st in
  Ok (setitem (fst st) page new_result, go).

(** One round of [while True]: the pass over the pages, from [go = False]. *)
Definition one_pass (corpus : Corpus) (damping_factor : Q) (N : Z)
  (result : dict Q) : res (dict Q * bool) :=
  for_each (keys result) (page_step corpus damping_factor N) (result, false).

Fixpoint iterate_loop (fuel : nat) (corpus : Corpus) (damping_factor : Q)
  (N : Z) (result : dict Q) : option (res (dict Q)) :=
  match fuel with
  | O => None
  | S fuel' =>
      match one_pass corpus damping_factor N result with
      | Raise e => Some (Raise e)
      | Ok (result', go) =>
          if go then iterate_loop fuel' corpus damping_factor N result'
          else Some (Ok result')
      end
  end.

(** Every page starts at [1/N]. *)
Definition iterate_init (corpus : Corpus) (N : Z) : res (dict Q) :=
  for_each (keys corpus)
    (fun result p =>
       q <- truediv 1 N ;;
       Ok (setitem result p q)) [].

Definition iterate_pagerank (fuel : nat) (corpus : Corpus)
  (damping_factor : Q) : option (res (dict Q)) :=
  let N := len corpus in
  match iterate_init corpus N with
  | Raise e => Some (Raise e)
  | Ok result => iterate_loop fuel corpus damping_factor N result
  end.

(** Sum of a list of rationals, and of the values of a distribution. *)
Definition sumQ (l : list Q) : Q := fold_right Qplus 0 l.
Definition total (d : dict Q) : Q := sumQ (values d).

Definition corpus_ab : Corpus :=
  [("a", ["b"]); ("b", [])]%string.

Definition corpus_ring : Corpus :=
  [("a", ["b"]); ("b", ["c"]); ("c", ["a"; "b"])]%string.

(** ** The update rule, as a function on rank assignments

    These definitions restate the loops above on total functions from pages
    to ranks; the lemmas below show that the code computes them. *)

(** The rank of [k] in [result], [0] for a page that is not a key. *)
Definition rank_of (result : dict Q) (k : string) : Q :=
  match get result k with
  | Some v => v
  | None => 0
  end.

(** The dict with the keys [ks] and the values of [f]. *)
Definition tabulate {V : Type} (ks : list string) (f : string -> V) : dict V :=
  map (fun k => (k, f k)) ks.

(** [x] with the value at [k] replaced by [v]. *)
Definition upd {V : Type} (x : string -> V) (k : string) (v : V) : string -> V :=
  fun k' => if String.eqb k' k then v else x k'.

Definition sumZ (l : list Z) : Z := fold_right Z.add 0%Z l.

(** The state of the sampling loop after [t] rounds: the counters are
    non-negative and add up to [t]; the weights for the next draw cover the
    universe and have a positive total. *)
Definition sample_inv (K : list string) (t : Z) (st : dict Z * dict Q) : Prop :=
  exists c : string -> Z,
    fst st = tabulate K c /\
    (forall k, (0 <= c k)%Z) /\
    sumZ (map c K) = t /\
    List.length (values (snd st)) = List.length K /\
    0 < sumQ (values (snd st)).

(** The body of the loop over [linker], on a rank assignment [x]; [e] is
    the item [(linker, corpus[linker])]. *)
Definition sigma_entry (corpus : Corpus) (x : string -> Q) (page : string)
  (sigma : Q) (e : string * list string) : Q :=
  if (len (snd e) =? 0)%Z then sigma + x (fst e) / inject_Z (len corpus)
  else if mem page (snd e) then sigma + x (fst e) / inject_Z (len (snd e))
  else sigma.

Definition sigma_of (corpus : Corpus) (x : string -> Q) (page : string) : Q :=
  fold_left (sigma_entry corpus x page) corpus 0.

Definition new_rank (corpus : Corpus) (d : Q) (x : string -> Q) (page : string)
  : Q :=
  (1 - d) / inject_Z (len corpus) + d * sigma_of corpus x page.

(** The pass over the pages [T], updating in place. *)
Fixpoint gs_pass (corpus : Corpus) (d : Q) (T : list string) (x : string -> Q)
  : string -> Q :=
  match T with
  | [] => x
  | t :: T' => gs_pass corpus d T' (upd x t (new_rank corpus d x t))
  end.

(** The flag [go] at the end of the pass over [T]. *)
Fixpoint gs_go (corpus : Corpus) (d : Q) (T : list string) (x : string -> Q)
  (go : bool) : bool :=
  match T with
  | [] => go
  | t :: T' =>
      gs_go corpus d T' (upd x t (new_rank corpus d x t))
        (if Qltb (1 # 1000) (Qabs (new_rank corpus d x t - x t)) then true
         else go)
  end.

Fixpoint gs_loop (fuel : nat) (corpus : Corpus) (d : Q) (x : string -> Q)
  : option (string -> Q) :=
  match fuel with
  | O => None
  | S fuel' =>
      if gs_go corpus d (keys corpus) x false
      then gs_loop fuel' corpus d (gs_pass corpus d (keys corpus) x)
      else Some (gs_pass corpus d (keys corpus) x)
  end.

(** *** The update rule as a linear map

    [weight corpus e page] is the share of the rank of the item [e] that the
    pass gives to [page]. *)
Definition weight (corpus : Corpus) (e : string * list string) (page : string)
  : Q :=
  if (len (snd e) =? 0)%Z then 1 / inject_Z (len corpus)
  else if mem page (snd e) then 1 / inject_Z (len (snd e))
  else 0.

(** What [page] receives from the items [E] under the ranks [g]. *)
Definition row (corpus : Corpus) (E : list (string * list string))
  (page : string) (g : string -> Q) : Q :=
  sumQ (map (fun e => weight corpus e page * g (fst e)) E).

(** What the item [e] gives to the pages [T] altogether. *)
Definition col (corpus : Corpus) (T : list string) (e : string * list string)
  : Q :=
  sumQ (map (weight corpus e) T).

(** Distance between two rank assignments, page by page. *)
Definition ad (x y : string -> Q) : string -> Q := fun k => Qabs (x k - y k).

(** The weighted norm in which a pass contracts: the item [e] counts with
    the weight [1 - d * (what e gives to the pages after it)]. *)
Fixpoint Wsum (corpus : Corpus) (d : Q) (E : list (string * list string))
  (g : string -> Q) : Q :=
  match E with
  | [] => 0
  | e :: E' => g (fst e) * (1 - d * col corpus (keys E') e) + Wsum corpus d E' g
  end.

(** What the pages of [E] receive from the items at or after them. *)
Fixpoint upper (corpus : Corpus) (E : list (string * list string))
  (g : string -> Q) : Q :=
  match E with
  | [] => 0
  | e :: E' => row corpus E (fst e) g + upper corpus E' g
  end.

(** What the items of [E] give to the pages after them. *)
Fixpoint Lsum (corpus : Corpus) (E : list (string * list string))
  (g : string -> Q) : Q :=
  match E with
  | [] => 0
  | e :: E' => g (fst e) * col corpus (keys E') e + Lsum corpus E' g
  end.

Fixpoint qpow (d : Q) (n : nat) : Q :=
  match n with
  | O => 1
  | S n' => d * qpow d n'
  end.

(** ** The iteration as a machine

    A configuration is the dict [result], the pages that the current pass
    has still to visit, and the flag [go].  A step is one round of
    [for page in result] or the start of another pass. *)

Record config : Type := Config {
  cfg_result : dict Q;
  cfg_todo : list string;
  cfg_go : bool
}.

Inductive step (corpus : Corpus) (d : Q) : config -> config -> Prop :=
| step_page (r : dict Q) (page : string) (rest : list string) (go : bool)
    (r' : dict Q) (go' : bool) :
    page_step corpus d (len corpus) (r, go) page = Ok (r', go') ->
    step corpus d (Config r (page :: rest) go) (Config r' rest go')
| step_again (r : dict Q) :
    step corpus d (Config r [] true) (Config r (keys r) false).

Inductive reachable (corpus : Corpus) (d : Q) : config -> Prop :=
| reach_init (r : dict Q) :
    iterate_init corpus (len corpus) = Ok r ->
    reachable corpus d (Config r (keys r) false)
| reach_step (c c' : config) :
    reachable corpus d c -> step corpus d c c' -> reachable corpus d c'.

(** ** The update rule in the words of the specification *)

(** What [linker] contributes to [page] under the ranks [rank]; [e] is the
    item [(linker, links)]. *)
Definition contribution (corpus : Corpus) (rank : string -> Q) (page : string)
  (e : string * list string) : Q :=
  if (len (snd e) =? 0)%Z then rank (fst e) / inject_Z (len corpus)
  else if mem page (snd e) then rank (fst e) / inject_Z (len (snd e))
  else 0.

Definition spec_new_rank (corpus : Corpus) (d : Q) (rank : string -> Q)
  (page : string) : Q :=
  (1 - d) / inject_Z (len corpus)
  + d * sumQ (map (contribution corpus rank page) corpus).

(** The ranks that the visit of the page after [pre] reads in a pass that
    updates in place: the new ranks of the pages already visited, the old
    ranks of the others. *)
Definition seen (pre : list string) (old new : string -> Q) : string -> Q :=
  fun q => if mem q pre then new q else old q.

Definition corpus_one : Corpus := [("a", [])]%string.

(** The invariant of the machine: the dict covers the universe, every rank
    is at least [(1 - d)/N], and the pass visits pages of the universe. *)
Definition bounded (corpus : Corpus) (d : Q) (c : config) : Prop :=
  exists x, cfg_result c = tabulate (keys corpus) x
            /\ (forall k, In k (keys corpus)
                           -> (1 - d) / inject_Z (len corpus) <= x k)
            /\ incl (cfg_todo c) (keys corpus).

(** Two dicts for the same graph: the same pages in the same order, and
    for every page the same set of links, enumerated in any order. *)
Definition same_graph (corpus corpus' : Corpus) : Prop :=
  Forall2 (fun e e' => fst e = fst e' /\ Permutation (snd e) (snd e'))
          corpus corpus'.

(** ** crawl

    A Python [str] is modelled by its UTF-8 encoding.  [crawl_with] is
    [crawl] on a directory that is read without error: the list of its
    entries in the order of [os.listdir], each with the text that
    [f.read()] returns for it.  [crawl_dir], further down, is [crawl] with
    the errors of [os.listdir], [open] and [f.read()]. *)

(** [s.endswith(suffix)] *)
Definition endswith (s suffix : string) : bool :=
  let n := String.length s in
  let m := String.length suffix in
  (m <=? n)%nat && String.eqb (substring (n - m) m s) suffix.

(** [set(links)]: every string once. *)
Fixpoint to_set (l : list string) : list string :=
  match l with
  | [] => []
  | x :: rest => if mem x (to_set rest) then to_set rest else x :: to_set rest
  end.

(** [s - {x}] *)
Definition discard (x : string) (s : list string) : list string :=
  filter (fun y => negb (String.eqb y x)) s.

(** [k in d] for a dict. *)
Definition has_key {V : Type} (d : dict V) (k : string) : bool :=
  match get d k with
  | Some _ => true
  | None => false
  end.

(** The body of the first loop of [crawl]; [extract contents] stands for
    [re.findall(..., contents)]. *)
Definition crawl_read (extract : string -> list string) (pages : Corpus)
  (entry : string * string) : Corpus :=
  let filename := fst entry in
  let contents := snd entry in
  if negb (endswith filename ".html") then pages
  else setitem pages filename (discard filename (to_set (extract contents))).

(** The body of the second loop of [crawl]. *)
Definition crawl_prune (pages : Corpus) (filename : string) : res Corpus :=
  links <- getitem pages filename ;;
  Ok (setitem pages filename (filter (fun link => has_key pages link) links)).

Definition crawl_with (extract : string -> list string)
  (listing : list (string * string)) : res Corpus :=
  let pages := fold_left (crawl_read extract) listing [] in
  for_each (keys pages) crawl_prune pages.

(** *** The regular expression of [crawl]

    The pattern reads: the characters [<a]; white space, once or more,
    greedy; any characters but [>], lazy; the characters [href=] and a
    double quote; the group, any characters but a double quote, greedy; a
    double quote.  It is a list of atoms, matched with backtracking in the
    order of Python's [re]: a greedy repetition tries the longest run
    first, a lazy one the shortest. *)

Inductive atom : Type :=
| Lit (c : ascii)         (* the character c *)
| SpacePlus               (* white space, once or more, greedy *)
| LazyNot (c : ascii)     (* any characters but c, lazy *)
| GroupNot (c : ascii).   (* the group: any characters but c, greedy *)

(** The double quote. *)
Definition dquote : ascii := "034"%char.

(** One character of the class [\s] at the head of [s], in UTF-8: U+0009
    to U+000D, U+001C to U+0020, U+0085, U+00A0, U+1680, U+2000 to U+200A,
    U+2028, U+2029, U+202F, U+205F, U+3000. *)
Definition ws_unit (s : string) : option string :=
  match s with
  | EmptyString => None
  | String c1 s1 =>
      let n1 := nat_of_ascii c1 in
      if ((9 <=? n1) && (n1 <=? 13) || (28 <=? n1) && (n1 <=? 32))%nat
      then Some s1
      else
        match s1 with
        | EmptyString => None
        | String c2 s2 =>
            let n2 := nat_of_ascii c2 in
            if (n1 =? 194)%nat then
              if ((n2 =? 133) || (n2 =? 160))%nat then Some s2 else None
            else
              match s2 with
              | EmptyString => None
              | String c3 s3 =>
                  let n3 := nat_of_ascii c3 in
                  if ((n1 =? 225) && (n2 =? 154) && (n3 =? 128)
                      || (n1 =? 226) && (n2 =? 128)
                         && ((128 <=? n3) && (n3 <=? 138) || (n3 =? 168)
                             || (n3 =? 169) || (n3 =? 175))
                      || (n1 =? 226) && (n2 =? 129) && (n3 =? 159)
                      || (n1 =? 227) && (n2 =? 128) && (n3 =? 128))%nat
                  then Some s3
                  else None
              end
        end
  end.

(** The result of a match: the text of the group and the text after the
    match. *)
Definition matched : Type := (string * string)%type.

(** Any characters but [c], lazy, followed by [k]. *)
Fixpoint lazy_not (c : ascii) (k : string -> option matched) (s : string)
  : option matched :=
  match k s with
  | Some r => Some r
  | None =>
      match s with
      | String c' s' => if Ascii.eqb c' c then None else lazy_not c k s'
      | EmptyString => None
      end
  end.

(** The group, any characters but [c], greedy, followed by [k]; [acc] is
    the text of the group so far. *)
Fixpoint greedy_not (c : ascii) (k : string -> string -> option matched)
  (acc : string) (s : string) : option matched :=
  match s with
  | String c' s' =>
      if Ascii.eqb c' c then k acc s
      else
        match greedy_not c k (String.append acc (String c' EmptyString)) s' with
        | Some r => Some r
        | None => k acc s
        end
  | EmptyString => k acc s
  end.

(** White space, any number of times, greedy, followed by [k]; every round
    takes at least one byte, so the length of [s] is enough fuel. *)
Fixpoint greedy_space (fuel : nat) (k : string -> option matched) (s : string)
  : option matched :=
  match fuel with
  | O => k s
  | S fuel' =>
      match ws_unit s with
      | Some s1 =>
          match greedy_space fuel' k s1 with
          | Some r => Some r
          | None => k s
          end
      | None => k s
      end
  end.

(** The match of the atoms [p] at the head of [s]; [cap] is the text of the
    group. *)
Fixpoint run (p : list atom) (cap : string) (s : string) : option matched :=
  match p with
  | [] => Some (cap, s)
  | Lit c :: p' =>
      match s with
      | String c' s' => if Ascii.eqb c' c then run p' cap s' else None
      | EmptyString => None
      end
  | SpacePlus :: p' =>
      match ws_unit s with
      | Some s1 => greedy_space (String.length s1) (run p' cap) s1
      | None => None
      end
  | LazyNot c :: p' => lazy_not c (run p' cap) s
  | GroupNot c :: p' => greedy_not c (run p') EmptyString s
  end.

Definition href_pattern : list atom :=
  [Lit "<"; Lit "a"; SpacePlus; LazyNot ">";
   Lit "h"; Lit "r"; Lit "e"; Lit "f"; Lit "="; Lit dquote;
   GroupNot dquote; Lit dquote]%char.

(** [re.findall] for this pattern: the group of every match, from left to
    right; after a match the search goes on behind it, after a failure one
    character further.  A match takes at least the two characters [<a]. *)
Fixpoint findall_from (fuel : nat) (s : string) : list string :=
  match fuel with
  | O => []
  | S fuel' =>
      match run href_pattern EmptyString s with
      | Some (link, rest) => link :: findall_from fuel' rest
      | None =>
          match s with
          | String _ s' => findall_from fuel' s'
          | EmptyString => []
          end
      end
  end.

Definition findall_href (contents : string) : list string :=
  findall_from (S (String.length contents)) contents.

(** [c in s] for a character and a string. *)
Fixpoint has_char (c : ascii) (s : string) : bool :=
  match s with
  | EmptyString => false
  | String c' s' => Ascii.eqb c' c || has_char c s'
  end.

(** *** [crawl] and the file system

    What [crawl] sees of a directory: [os.listdir(directory)] raises (the
    directory is missing, is no directory, may not be read) or gives the
    names of the entries; [open] and [f.read()] on an entry raise (the
    entry is a directory, may not be read, is not valid text) or give its
    text. *)
Record directory : Type := {
  listdir : res (list string);
  read : string -> res string
}.

(** The body of the first loop of [crawl]: a name that does not end in
    [.html] is skipped, unopened; an error of [open] or [f.read()] leaves
    the loop and the function. *)
Definition crawl_open (extract : string -> list string)
  (read : string -> res string) (pages : Corpus) (filename : string)
  : res Corpus :=
  if negb (endswith filename ".html") then Ok pages
  else
    contents <- read filename ;;
    Ok (setitem pages filename (discard filename (to_set (extract contents)))).

Definition crawl_dir (extract : string -> list string) (dir : directory)
  : res Corpus :=
  names <- listdir dir ;;
  pages <- for_each names (crawl_open extract (read dir)) [] ;;
  for_each (keys pages) crawl_prune pages.

(** [crawl(directory)] *)
Definition crawl (dir : directory) : res Corpus :=
  crawl_dir findall_href dir.

(** The text that reading [filename] gives, where it gives one. *)
Definition text_of (dir : directory) (filename : string) : string :=
  match read dir filename with
  | Ok contents => contents
  | Raise _ => EmptyString
  end.

(** The entries of a directory with their texts, as [crawl_with] takes
    them. *)
Definition entries_of (dir : directory) (names : list string)
  : list (string * string) :=
  map (fun filename => (filename, text_of dir filename)) names.

(** The directory with the given files, all of them readable; opening a
    name that is not there raises [OSError] (FileNotFoundError). *)
Definition files (listing : list (string * string)) : directory :=
  {| listdir := Ok (map fst listing);
     read := fun filename =>
       match get listing filename with
       | Some contents => Ok contents
       | None => Raise OSError
       end |}.

(** The constants of the module. *)
Definition DAMPING : Q := 85 # 100.
Definition SAMPLES : Z := 10000.

(** [<a href=QtargetQ>], with [Q] the double quote. *)
Definition anchor (target : string) : string :=
  String.append "<a href="
    (String dquote (String.append target (String dquote ">"))).

Definition site : list (string * string) :=
  [("1.html", String.append (anchor "2.html") (anchor "1.html"));
   ("notes.txt", anchor "1.html");
   ("2.html", String.append (anchor "1.html") (anchor "3.html"))]%string.

(** The files of [site] and, between them, a sub-directory with the name
    [d.html]: [open] raises on it (IsADirectoryError, an [OSError]). *)
Definition site_with_subdirectory : directory :=
  {| listdir := Ok ["1.html"; "notes.txt"; "d.html"; "2.html"]%string;
     read := fun filename =>
       if String.eqb filename "d.html" then Raise OSError
       else read (files site) filename |}.

(** * Properties *)

(** ** The functions on small graphs *)

Example transition_model_linked :
  transition_model corpus_ab "a" (1 # 2)
  = Ok [("a"%string, (1 - (1 # 2)) / 2);
        ("b"%string, (1 - (1 # 2)) / 2 + (1 # 2) / 1)].
Proof. vm_compute. reflexivity. Qed.

Example transition_model_sink :
  transition_model corpus_ab "b" (1 # 2)
  = Ok [("a"%string, 1 / 2); ("b"%string, 1 / 2)].
Proof. vm_compute. reflexivity. Qed.

Example transition_model_unknown_page :
  transition_model corpus_ab "c" (1 # 2) = Raise KeyError.
Proof. reflexivity. Qed.

Example transition_model_dangling_link :
  transition_model [("a"%string, ["z"%string])] "a" (1 # 2) = Raise KeyError.
Proof. reflexivity. Qed.

Example choices_middle :
  choices ["a"; "b"; "c"]%string [1 # 4; 1 # 2; 1 # 4] (1 # 4) = Ok "b"%string.
Proof. reflexivity. Qed.

Example choices_no_weight :
  choices ["a"; "b"]%string [0; 0] (1 # 2) = Raise ValueError.
Proof. reflexivity. Qed.

Example sample_pagerank_ring :
  sample_pagerank corpus_ring (1 # 2) 5 (fun t => Z.of_nat t # 7)
  = Ok [("a"%string, 2 / 5); ("b"%string, 2 / 5); ("c"%string, 1 / 5)].
Proof. vm_compute. reflexivity. Qed.

Example sample_pagerank_empty_graph :
  sample_pagerank [] (1 # 2) 5 (fun _ => 0) = Raise IndexError.
Proof. reflexivity. Qed.

Example iterate_pagerank_five_passes :
  iterate_pagerank 5 corpus_ab (1 # 2) = None.
Proof. vm_compute. reflexivity. Qed.

Example iterate_pagerank_six_passes :
  exists r,
    iterate_pagerank 6 corpus_ab (1 # 2) = Some (Ok r)
    /\ map (fun kv => (fst kv, Qred (snd kv))) r
       = [("a"%string, 104809 # 262144); ("b"%string, 314427 # 524288)].
Proof. eexists. split; vm_compute; reflexivity. Qed.

Example iterate_pagerank_empty_graph :
  iterate_pagerank 1 [] (1 # 2) = Some (Ok []).
Proof. reflexivity. Qed.

(** ** Lists of pages *)

Lemma mem_In (p : string) (s : list string) : mem p s = true <-> In p s.
Proof.
  unfold mem. rewrite existsb_exists. split.
  - intros [x [Hx He]]. apply String.eqb_eq in He. now subst.
  - intros H. exists p. split; [assumption | apply String.eqb_refl].
Qed.

Lemma mem_not_In (p : string) (s : list string) : mem p s = false <-> ~ In p s.
Proof.
  rewrite <- mem_In. destruct (mem p s); split; congruence.
Qed.

Lemma nodupb_NoDup (l : list string) : nodupb l = true <-> NoDup l.
Proof.
  induction l as [|x l IH]; simpl.
  - split; [constructor | reflexivity].
  - rewrite andb_true_iff, negb_true_iff, mem_not_In, IH. split.
    + intros [H1 H2]. now constructor.
    + intros H. inversion H; subst. now split.
Qed.

Lemma is_dict_keys (corpus : Corpus) :
  is_dict corpus = true -> NoDup (keys corpus).
Proof.
  unfold is_dict. rewrite andb_true_iff. intros [H _]. now apply nodupb_NoDup.
Qed.

Lemma well_formed_is_dict (corpus : Corpus) :
  well_formed corpus = true -> is_dict corpus = true.
Proof. unfold well_formed. rewrite andb_true_iff. tauto. Qed.

(** ** Dictionaries *)

Section DictFacts.
Context {V : Type}.
Implicit Types (d : dict V) (k : string) (v : V).

Lemma get_In d k v : get d k = Some v -> In (k, v) d.
Proof.
  induction d as [|[k' v'] d IH]; simpl; [discriminate|].
  destruct (String.eqb k' k) eqn:E.
  - apply String.eqb_eq in E. intros [= ->]. left. now subst.
  - intros H. right. now apply IH.
Qed.

Lemma get_None d k : get d k = None <-> ~ In k (keys d).
Proof.
  induction d as [|[k' v'] d IH]; simpl.
  - tauto.
  - destruct (String.eqb k' k) eqn:E.
    + apply String.eqb_eq in E. split; [discriminate | intros H; exfalso; auto].
    + apply String.eqb_neq in E. rewrite IH. tauto.
Qed.

Lemma get_Some_key d k : In k (keys d) -> exists v, get d k = Some v.
Proof.
  intros H. destruct (get d k) as [v|] eqn:E; [now exists v|].
  apply get_None in E. contradiction.
Qed.

Lemma In_get d k v : NoDup (keys d) -> In (k, v) d -> get d k = Some v.
Proof.
  induction d as [|[k' v'] d IH]; simpl; [tauto|].
  intros Hnd [H | H]; inversion Hnd; subst.
  - injection H as -> ->. now rewrite String.eqb_refl.
  - destruct (String.eqb k' k) eqn:E; [|now apply IH].
    apply String.eqb_eq in E. subst. exfalso.
    apply H2. unfold keys. change k with (fst (k, v)). now apply in_map.
Qed.

Lemma get_setitem_same d k v : get (setitem d k v) k = Some v.
Proof.
  induction d as [|[k' v'] d IH]; simpl.
  - now rewrite String.eqb_refl.
  - destruct (String.eqb k' k) eqn:E; simpl; now rewrite E.
Qed.

Lemma get_setitem_other d k k' v : k <> k' -> get (setitem d k v) k' = get d k'.
Proof.
  intros Hne. induction d as [|[k0 v0] d IH]; simpl.
  - apply String.eqb_neq in Hne. now rewrite Hne.
  - destruct (String.eqb k0 k) eqn:E; simpl.
    + apply String.eqb_eq in E. subst k0.
      apply String.eqb_neq in Hne. now rewrite Hne.
    + now rewrite IH.
Qed.


Lemma setitem_new d k v : ~ In k (keys d) -> setitem d k v = d ++ [(k, v)].
Proof.
  induction d as [|[k0 v0] d IH]; simpl; [reflexivity|].
  intros H. destruct (String.eqb k0 k) eqn:E.
  - apply String.eqb_eq in E. tauto.
  - f_equal. apply IH. tauto.
Qed.

Lemma keys_tabulate ks (f : string -> V) : keys (tabulate ks f) = ks.
Proof.
  unfold keys, tabulate. rewrite map_map. simpl. apply map_id.
Qed.

Lemma get_tabulate ks (f : string -> V) k :
  In k ks -> get (tabulate ks f) k = Some (f k).
Proof.
  induction ks as [|k0 ks IH]; simpl; [tauto|].
  destruct (String.eqb k0 k) eqn:E.
  - apply String.eqb_eq in E. now subst.
  - apply String.eqb_neq in E. intros [H|H]; [contradiction | now apply IH].
Qed.

Lemma tabulate_ext ks (f g : string -> V) :
  (forall k, In k ks -> f k = g k) -> tabulate ks f = tabulate ks g.
Proof.
  intros H. unfold tabulate. apply map_ext_in. intros k Hk. now rewrite H.
Qed.

Lemma tabulate_app ks1 ks2 (f : string -> V) :
  tabulate (ks1 ++ ks2) f = tabulate ks1 f ++ tabulate ks2 f.
Proof. apply map_app. Qed.

Lemma setitem_tabulate ks (f : string -> V) k v :
  NoDup ks -> In k ks ->
  setitem (tabulate ks f) k v
  = tabulate ks (fun k' => if String.eqb k' k then v else f k').
Proof.
  induction ks as [|k0 ks IH]; simpl; [tauto|].
  intros Hnd H. inversion Hnd; subst. destruct (String.eqb k0 k) eqn:E.
  - apply String.eqb_eq in E. subst k0. f_equal.
    apply tabulate_ext. intros k' Hk'.
    destruct (String.eqb k' k) eqn:E'; [|reflexivity].
    apply String.eqb_eq in E'. subst. contradiction.
  - apply String.eqb_neq in E. f_equal. apply IH; tauto.
Qed.

Lemma tabulate_get d : NoDup (keys d) ->
  forall dflt, tabulate (keys d)
                 (fun k => match get d k with Some v => v | None => dflt end) = d.
Proof.
  induction d as [|[k0 v0] d IH]; simpl; [reflexivity|].
  intros Hnd dflt. inversion Hnd; subst. rewrite String.eqb_refl. f_equal.
  rewrite <- (IH H2 dflt) at 2. apply tabulate_ext. intros k Hk.
  destruct (String.eqb k0 k) eqn:E; [|reflexivity].
  apply String.eqb_eq in E. subst. contradiction.
Qed.

(** A loop that writes [f p] at every key [p] of [T], in turn. *)
Lemma for_each_build (body : dict V -> string -> res (dict V))
  (f : string -> V) (T : list string) :
  forall D, NoDup (D ++ T) ->
  (forall out p, In p T -> body out p = Ok (setitem out p (f p))) ->
  for_each T body (tabulate D f) = Ok (tabulate (D ++ T) f).
Proof.
  induction T as [|t T IH]; intros D Hnd Hbody; simpl.
  - now rewrite app_nil_r.
  - rewrite Hbody by (now left). simpl.
    rewrite setitem_new.
    + change [(t, f t)] with (tabulate [t] f). rewrite <- tabulate_app.
      replace (D ++ t :: T) with ((D ++ [t]) ++ T) by (now rewrite <- app_assoc).
      apply IH.
      * now rewrite <- app_assoc.
      * intros out p Hp. apply Hbody. now right.
    + rewrite keys_tabulate. apply NoDup_remove_2 in Hnd.
      intros Hin. apply Hnd. apply in_or_app. now left.
Qed.

End DictFacts.

Lemma len_nonzero {A : Type} (l : list A) : l <> [] -> (len l =? 0)%Z = false.
Proof.
  intros H. apply Z.eqb_neq. unfold len. destruct l; [congruence | simpl; lia].
Qed.


Lemma len_keys {V : Type} (d : dict V) : len (keys d) = len d.
Proof. unfold keys, len. now rewrite length_map. Qed.

Lemma get_nonempty {V : Type} (d : dict V) k v : get d k = Some v -> d <> [].
Proof. destruct d; simpl; [discriminate | congruence]. Qed.

(** ** transition_model *)

Lemma transition_sink (corpus : Corpus) (page : string) (d : Q) :
  NoDup (keys corpus) ->
  get corpus page = Some [] ->
  transition_model corpus page d
  = Ok (tabulate (keys corpus) (fun _ => 1 / inject_Z (len corpus))).
Proof.
  intros Hkeys Hpage. unfold transition_model, getitem. rewrite Hpage. simpl.
  unfold truediv. rewrite (len_nonzero corpus (get_nonempty _ _ _ Hpage)). simpl.
  now apply (for_each_build _ (fun _ => 1 / inject_Z (len corpus)) (keys corpus) []).
Qed.

(** The loop [for p in corpus[page]: result[p] += prob]. *)
Lemma add_links_loop (prob : Q) (K : list string) :
  NoDup K ->
  forall (L : list string) (f : string -> Q),
  NoDup L -> incl L K ->
  for_each L (fun result p => v <- getitem result p ;;
                              Ok (setitem result p (v + prob)))
           (tabulate K f)
  = Ok (tabulate K (fun k => if mem k L then f k + prob else f k)).
Proof.
  intros HK. induction L as [|p L IH]; intros f HL Hincl; simpl.
  - reflexivity.
  - assert (Hp : In p K) by (apply Hincl; now left).
    unfold getitem at 1. rewrite (get_tabulate K f p Hp). simpl.
    rewrite (setitem_tabulate K f p (f p + prob) HK Hp).
    inversion HL; subst.
    rewrite IH; [| assumption | intros q Hq; apply Hincl; now right].
    f_equal. apply tabulate_ext. intros k Hk. simpl.
    destruct (String.eqb k p) eqn:E; simpl.
    + apply String.eqb_eq in E. subst k.
      apply mem_not_In in H1. now rewrite H1.
    + reflexivity.
Qed.

Lemma transition_links (corpus : Corpus) (page : string) (links : list string)
  (d : Q) :
  NoDup (keys corpus) ->
  get corpus page = Some links ->
  links <> [] -> NoDup links -> incl links (keys corpus) ->
  transition_model corpus page d
  = Ok (tabulate (keys corpus)
          (fun k => if mem k links
                    then (1 - d) / inject_Z (len corpus) + d / inject_Z (len links)
                    else (1 - d) / inject_Z (len corpus))).
Proof.
  intros Hkeys Hpage Hne Hnd Hincl. unfold transition_model, getitem.
  rewrite Hpage. simpl. rewrite (len_nonzero links Hne).
  rewrite (for_each_build _ (fun _ => (1 - d) / inject_Z (len corpus))
             (keys corpus) [] Hkeys).
  - simpl. unfold truediv at 1. rewrite (len_nonzero links Hne). simpl.
    now apply add_links_loop.
  - intros out p _. unfold truediv.
    now rewrite (len_nonzero corpus (get_nonempty _ _ _ Hpage)).
Qed.

(** ** Sums *)

Lemma len_cons {A : Type} (x : A) (l : list A) :
  inject_Z (len (x :: l)) == inject_Z (len l) + 1.
Proof.
  unfold len. simpl List.length. rewrite Nat2Z.inj_succ, <- Z.add_1_r.
  now rewrite inject_Z_plus.
Qed.

Lemma len_pos {A : Type} (l : list A) : l <> [] -> 0 < inject_Z (len l).
Proof.
  intros H. change 0 with (inject_Z 0). rewrite <- Zlt_Qlt.
  unfold len. destruct l; [congruence | simpl; lia].
Qed.


Lemma values_tabulate {V : Type} (K : list string) (f : string -> V) :
  values (tabulate K f) = map f K.
Proof. unfold values, tabulate. now rewrite map_map. Qed.

Lemma sumQ_indicator (K L : list string) (a b : Q) :
  sumQ (map (fun k => if mem k L then a + b else a) K)
  == inject_Z (len K) * a
     + inject_Z (len (filter (fun k => mem k L) K)) * b.
Proof.
  induction K as [|k K IH].
  - simpl. unfold len. simpl. ring.
  - cbn [map sumQ fold_right filter]. fold (sumQ (map (fun k => if mem k L then a + b else a) K)).
    rewrite IH. destruct (mem k L); rewrite ?len_cons; ring.
Qed.

(** A set of pages inside the universe is counted once per page. *)
Lemma filter_mem_length (K L : list string) :
  NoDup K -> NoDup L -> incl L K ->
  List.length (filter (fun k => mem k L) K) = List.length L.
Proof.
  intros HK HL Hincl. apply Nat.le_antisymm.
  - apply NoDup_incl_length; [now apply NoDup_filter|].
    intros k Hk. apply filter_In in Hk. now apply mem_In.
  - apply NoDup_incl_length; [assumption|].
    intros k Hk. apply filter_In. split; [now apply Hincl | now apply mem_In].
Qed.

Lemma filter_mem_length_le (K L : list string) :
  NoDup K -> (List.length (filter (fun k => mem k L) K) <= List.length L)%nat.
Proof.
  intros HK. apply NoDup_incl_length; [now apply NoDup_filter|].
  intros k Hk. apply filter_In in Hk. now apply mem_In.
Qed.

Lemma transition_links_total (K L : list string) (d : Q) :
  K <> [] -> L <> [] -> NoDup K -> NoDup L -> incl L K ->
  total (tabulate K
           (fun k => if mem k L
                     then (1 - d) / inject_Z (len K) + d / inject_Z (len L)
                     else (1 - d) / inject_Z (len K)))
  == 1.
Proof.
  intros HK0 HL0 HK HL Hincl. unfold total. rewrite values_tabulate.
  rewrite sumQ_indicator. unfold len at 3. rewrite filter_mem_length by assumption.
  fold (len L). pose proof (len_pos K HK0). pose proof (len_pos L HL0).
  field. split; lra.
Qed.

(** ** random.choices *)

Lemma bisect_right_bounds (a : list Q) (x : Q) :
  forall fuel lo hi, (lo <= hi)%nat ->
  (lo <= bisect_right fuel a x lo hi <= hi)%nat.
Proof.
  induction fuel as [|fuel IH]; intros lo hi Hle; cbn [bisect_right]; [lia|].
  destruct (lo <? hi)%nat eqn:E; [|lia].
  apply Nat.ltb_lt in E.
  pose proof (Nat.div_mod_eq (lo + hi) 2) as Hdm.
  pose proof (Nat.mod_upper_bound (lo + hi) 2 ltac:(lia)) as Hmod.
  destruct (Qltb x (nth ((lo + hi) / 2) a 0)).
  - specialize (IH lo ((lo + hi) / 2)%nat ltac:(lia)). lia.
  - specialize (IH ((lo + hi) / 2 + 1)%nat hi ltac:(lia)). lia.
Qed.

Lemma accumulate_from_length (ws : list Q) :
  forall acc, List.length (accumulate_from acc ws) = List.length ws.
Proof. induction ws as [|w ws IH]; intros acc; simpl; [reflexivity | now rewrite IH]. Qed.

Lemma accumulate_length (ws : list Q) :
  List.length (accumulate ws) = List.length ws.
Proof. destruct ws; simpl; [reflexivity | now rewrite accumulate_from_length]. Qed.

Lemma accumulate_from_last (ws : list Q) :
  forall acc, exists last rest,
    rev (acc :: accumulate_from acc ws) = last :: rest /\ last == acc + sumQ ws.
Proof.
  induction ws as [|w ws IH]; intros acc.
  - exists acc, []. split; [reflexivity | simpl; ring].
  - destruct (IH (acc + w)) as [last [rest [Hrev Hlast]]].
    exists last, (rest ++ [acc]). split.
    + change (accumulate_from acc (w :: ws))
        with ((acc + w) :: accumulate_from (acc + w) ws).
      change (rev (acc :: (acc + w) :: accumulate_from (acc + w) ws))
        with (rev ((acc + w) :: accumulate_from (acc + w) ws) ++ [acc]).
      now rewrite Hrev.
    + rewrite Hlast. simpl. ring.
Qed.

Lemma accumulate_last (ws : list Q) :
  ws <> [] ->
  exists last rest, rev (accumulate ws) = last :: rest /\ last == sumQ ws.
Proof.
  destruct ws as [|w ws]; [congruence|]. intros _.
  destruct (accumulate_from_last ws w) as [last [rest [Hrev Hlast]]].
  exists last, rest. split; [exact Hrev | now rewrite Hlast].
Qed.

(** With as many weights as pages and a positive total, the draw is a page
    of the population, whatever [random()] returns. *)
Lemma choices_ok (population : list string) (weights : list Q) (u : Q) :
  population <> [] ->
  List.length weights = List.length population ->
  0 < sumQ weights ->
  exists p, choices population weights u = Ok p /\ In p population.
Proof.
  intros Hne Hlen Hpos. unfold choices.
  rewrite accumulate_length, Hlen, Nat.eqb_refl. simpl.
  destruct (accumulate_last weights) as [last [rest [Hrev Hlast]]].
  { intros ->. destruct population; [congruence | discriminate]. }
  rewrite Hrev.
  destruct (Qle_bool (last + 0) 0) eqn:E.
  { apply Qle_bool_iff in E. rewrite Hlast in E. lra. }
  set (hi := (List.length population - 1)%nat).
  pose proof (bisect_right_bounds (accumulate weights) (u * (last + 0)) hi 0 hi
                ltac:(lia)) as [_ Hb].
  destruct (nth_error population
              (bisect_right hi (accumulate weights) (u * (last + 0)) 0 hi))
    as [p|] eqn:En.
  - exists p. split; [reflexivity | eapply nth_error_In, En].
  - apply nth_error_None in En. destruct population; [congruence|].
    simpl in hi, En. subst hi. lia.
Qed.

(** ** Well-formed graphs *)

Lemma well_formed_links (corpus : Corpus) (page : string) (links : list string) :
  well_formed corpus = true ->
  get corpus page = Some links ->
  NoDup links /\ incl links (keys corpus).
Proof.
  unfold well_formed, is_dict, closed. rewrite !andb_true_iff.
  intros [[_ Hnd] Hcl] Hget.
  assert (Hin : In links (values corpus)).
  { apply get_In in Hget. unfold values.
    change links with (snd (page, links)). now apply in_map. }
  rewrite forallb_forall in Hnd, Hcl. split.
  - apply nodupb_NoDup. now apply Hnd.
  - specialize (Hcl links Hin). rewrite forallb_forall in Hcl.
    intros p Hp. apply mem_In. now apply Hcl.
Qed.

(** On a well-formed graph the transition model of a page of the universe
    is a dict over the universe whose values add up to one. *)
Lemma transition_total (corpus : Corpus) (page : string) (d : Q) :
  well_formed corpus = true ->
  In page (keys corpus) ->
  exists f, transition_model corpus page d = Ok (tabulate (keys corpus) f)
            /\ total (tabulate (keys corpus) f) == 1.
Proof.
  intros Hwf Hin.
  pose proof (is_dict_keys _ (well_formed_is_dict _ Hwf)) as HK.
  destruct (get_Some_key corpus page Hin) as [links Hget].
  assert (Hne : keys corpus <> []) by (intros E; rewrite E in Hin; contradiction).
  destruct links as [|l links].
  - eexists. split; [now apply transition_sink|].
    unfold total. rewrite values_tabulate.
    transitivity (inject_Z (len (keys corpus)) * (1 / inject_Z (len corpus))).
    + clear. induction (keys corpus) as [|k K IH].
      * simpl. unfold len. simpl. ring.
      * cbn [map sumQ fold_right]. fold (sumQ (map (fun _ : string => 1 / inject_Z (len corpus)) K)).
        rewrite IH, len_cons. ring.
    + rewrite len_keys.
      assert (corpus <> []) by (eapply get_nonempty, Hget).
      pose proof (len_pos corpus H). field. lra.
  - destruct (well_formed_links _ _ _ Hwf Hget) as [Hnd Hincl].
    eexists. split.
    + apply transition_links with (links := l :: links);
        [assumption | assumption | discriminate | assumption | assumption].
    + rewrite <- (len_keys corpus).
      apply transition_links_total; [assumption | discriminate | assumption..].
Qed.

(** ** sample_pagerank *)

Lemma sample_init_tabulate (corpus : Corpus) :
  NoDup (keys corpus) ->
  sample_init corpus
  = (tabulate (keys corpus) (fun _ => 0%Z), tabulate (keys corpus) (fun _ => 1)).
Proof.
  intros HK. unfold sample_init.
  change (@nil (string * Z)) with (tabulate [] (fun _ : string => 0%Z)).
  change (@nil (string * Q)) with (tabulate [] (fun _ : string => 1)).
  rewrite <- (app_nil_l (keys corpus)) at 2 3.
  rewrite <- (app_nil_l (keys corpus)) in HK.
  revert HK. generalize (@nil string) as D.
  induction (keys corpus) as [|t T IH]; intros D HK; simpl.
  - now rewrite app_nil_r.
  - assert (Hnew : ~ In t D).
    { apply NoDup_remove_2 in HK. intros H. apply HK, in_or_app. now left. }
    rewrite !setitem_new by (now rewrite keys_tabulate).
    change [(t, 0%Z)] with (tabulate [t] (fun _ : string => 0%Z)).
    change [(t, 1)] with (tabulate [t] (fun _ : string => 1)).
    rewrite <- !tabulate_app.
    replace (D ++ t :: T) with ((D ++ [t]) ++ T) by (now rewrite <- app_assoc).
    apply IH. now rewrite <- app_assoc.
Qed.

Lemma sumQ_const (K : list string) (c : Q) :
  sumQ (map (fun _ => c) K) == inject_Z (len K) * c.
Proof.
  induction K as [|k K IH].
  - simpl. unfold len. simpl. ring.
  - cbn [map sumQ fold_right]. fold (sumQ (map (fun _ : string => c) K)).
    rewrite IH, len_cons. ring.
Qed.

Lemma sumZ_const0 (K : list string) : sumZ (map (fun _ => 0%Z) K) = 0%Z.
Proof. induction K as [|k K IH]; simpl; [reflexivity | now rewrite IH]. Qed.

Lemma sumZ_ext (K : list string) (f g : string -> Z) :
  (forall k, In k K -> f k = g k) -> sumZ (map f K) = sumZ (map g K).
Proof. intros H. f_equal. now apply map_ext_in. Qed.

Lemma sumZ_upd (K : list string) (c : string -> Z) (p : string) (v : Z) :
  NoDup K -> In p K ->
  sumZ (map (upd c p v) K) = (sumZ (map c K) - c p + v)%Z.
Proof.
  induction K as [|k K IH]; simpl; [tauto|].
  intros Hnd Hin. inversion Hnd; subst. unfold upd at 1.
  destruct (String.eqb k p) eqn:E.
  - apply String.eqb_eq in E. subst k.
    rewrite (sumZ_ext K (upd c p v) c).
    + lia.
    + intros k Hk. unfold upd. destruct (String.eqb k p) eqn:E'; [|reflexivity].
      apply String.eqb_eq in E'. subst. contradiction.
  - apply String.eqb_neq in E. destruct Hin as [->|Hin]; [congruence|].
    rewrite IH by assumption. lia.
Qed.

Lemma sample_inv_init (corpus : Corpus) :
  NoDup (keys corpus) -> corpus <> [] ->
  sample_inv (keys corpus) 0 (sample_init corpus).
Proof.
  intros HK Hne. rewrite sample_init_tabulate by assumption.
  exists (fun _ => 0%Z). cbn [fst snd]. repeat split.
  - intros _. lia.
  - apply sumZ_const0.
  - rewrite values_tabulate. now rewrite length_map.
  - rewrite values_tabulate, sumQ_const.
    assert (keys corpus <> []) by (destruct corpus; [congruence | discriminate]).
    pose proof (len_pos _ H). lra.
Qed.

Lemma sample_step_inv (corpus : Corpus) (d : Q) (rng : nat -> Q)
  (st : dict Z * dict Q) (t : Z) (i : nat) :
  well_formed corpus = true -> corpus <> [] ->
  sample_inv (keys corpus) t st ->
  exists st', sample_step corpus d rng st i = Ok st'
              /\ sample_inv (keys corpus) (t + 1) st'.
Proof.
  intros Hwf Hne [c [Hc [Hc0 [Hsum [Hlen Hpos]]]]].
  pose proof (is_dict_keys _ (well_formed_is_dict _ Hwf)) as HK.
  assert (HKne : keys corpus <> []) by (destruct corpus; [congruence | discriminate]).
  destruct (choices_ok (keys corpus) (values (snd st)) (rng i) HKne Hlen Hpos)
    as [p [Hch Hp]].
  destruct (transition_total corpus p d Hwf Hp) as [f [Htm Htot]].
  unfold sample_step. rewrite Hch. cbn [bind].
  rewrite Hc. unfold getitem. rewrite (get_tabulate _ c p Hp). cbn [bind].
  rewrite Htm. cbn [bind]. eexists. split; [reflexivity|].
  exists (upd c p (c p + 1)%Z). cbn [fst snd]. repeat split.
  - now apply setitem_tabulate.
  - intros k. unfold upd. pose proof (Hc0 k). pose proof (Hc0 p).
    destruct (String.eqb k p); lia.
  - rewrite sumZ_upd by assumption. lia.
  - rewrite values_tabulate. now rewrite length_map.
  - unfold total in Htot. rewrite Htot. lra.
Qed.

Lemma sample_loop_inv (corpus : Corpus) (d : Q) (rng : nat -> Q) :
  well_formed corpus = true -> corpus <> [] ->
  forall (m s : nat) (st : dict Z * dict Q) (t : Z),
  sample_inv (keys corpus) t st ->
  exists st', for_each (seq s m) (sample_step corpus d rng) st = Ok st'
              /\ sample_inv (keys corpus) (t + Z.of_nat m) st'.
Proof.
  intros Hwf Hne. induction m as [|m IH]; intros s st t Hinv.
  - exists st. split; [reflexivity|]. now rewrite Z.add_0_r.
  - destruct (sample_step_inv corpus d rng st t s Hwf Hne Hinv) as [st1 [H1 Hinv1]].
    destruct (IH (S s) st1 (t + 1)%Z Hinv1) as [st2 [H2 Hinv2]].
    exists st2. split.
    + cbn [seq for_each]. rewrite H1. exact H2.
    + replace (t + Z.of_nat (S m))%Z with (t + 1 + Z.of_nat m)%Z by lia.
      exact Hinv2.
Qed.

Lemma normalise_tabulate (K : list string) (c : string -> Z) (n : Z) :
  NoDup K -> n <> 0%Z ->
  normalise (tabulate K c) n
  = Ok (tabulate K (fun k => inject_Z (c k) / inject_Z n)).
Proof.
  intros HK Hn. unfold normalise. rewrite keys_tabulate.
  apply (for_each_build _ (fun k => inject_Z (c k) / inject_Z n) K []); [exact HK|].
  intros out p Hp. unfold getitem. rewrite (get_tabulate K c p Hp). cbn [bind].
  unfold truediv. apply Z.eqb_neq in Hn. now rewrite Hn.
Qed.

Lemma sumQ_counts (K : list string) (c : string -> Z) (n : Z) :
  sumQ (map (fun k => inject_Z (c k) / inject_Z n) K)
  == inject_Z (sumZ (map c K)) / inject_Z n.
Proof.
  induction K as [|k K IH].
  - simpl. unfold Qdiv. ring.
  - cbn [map sumQ sumZ fold_right].
    fold (sumQ (map (fun k => inject_Z (c k) / inject_Z n) K)).
    fold (sumZ (map c K)). rewrite IH, inject_Z_plus. unfold Qdiv. ring.
Qed.

(** The whole estimator on a well-formed, non-empty graph and a positive
    number of samples. *)
Lemma sample_pagerank_counts (corpus : Corpus) (d : Q) (n : Z) (rng : nat -> Q) :
  well_formed corpus = true -> corpus <> [] -> (0 < n)%Z ->
  exists c : string -> Z,
    sample_pagerank corpus d n rng
    = Ok (tabulate (keys corpus) (fun k => inject_Z (c k) / inject_Z n))
    /\ (forall k, (0 <= c k)%Z)
    /\ sumZ (map c (keys corpus)) = n.
Proof.
  intros Hwf Hne Hn.
  pose proof (is_dict_keys _ (well_formed_is_dict _ Hwf)) as HK.
  destruct (sample_loop_inv corpus d rng Hwf Hne (Z.to_nat n) 0%nat
              (sample_init corpus) 0%Z (sample_inv_init corpus HK Hne))
    as [st [Hloop [c [Hc [Hc0 [Hsum _]]]]]].
  exists c. unfold sample_pagerank. rewrite Hloop. cbn [bind]. rewrite Hc.
  repeat split.
  - apply normalise_tabulate; [assumption | lia].
  - exact Hc0.
  - rewrite Hsum. lia.
Qed.

(** ** iterate_pagerank: the code computes the update rule *)

Lemma sigma_loop (corpus : Corpus) (x : string -> Q) (page : string) :
  NoDup (keys corpus) ->
  forall (E : list (string * list string)) (sigma : Q),
  incl E corpus ->
  for_each (keys E) (sigma_step corpus (tabulate (keys corpus) x) page) sigma
  = Ok (fold_left (sigma_entry corpus x page) E sigma).
Proof.
  intros HK. induction E as [|[linker links] E IH]; intros sigma Hincl.
  - reflexivity.
  - assert (Hin : In (linker, links) corpus) by (apply Hincl; now left).
    assert (Hne : corpus <> []) by (intros ->; contradiction).
    assert (HinK : In linker (keys corpus)).
    { unfold keys. change linker with (fst (linker, links)). now apply in_map. }
    cbn [keys map fst for_each fold_left].
    replace (sigma_step corpus (tabulate (keys corpus) x) page sigma linker)
      with (Ok (A := Q) (sigma_entry corpus x page sigma (linker, links))).
    + cbn [bind]. apply IH. intros e He. apply Hincl. now right.
    + unfold sigma_step, sigma_entry, getitem.
      rewrite (In_get corpus linker links HK Hin).
      rewrite (get_tabulate (keys corpus) x linker HinK).
      cbn [bind fst snd]. unfold truediv.
      destruct (len links =? 0)%Z eqn:E0.
      * now rewrite (len_nonzero corpus Hne).
      * destruct (mem page links); reflexivity.
Qed.

Lemma page_step_tabulate (corpus : Corpus) (d : Q) (x : string -> Q)
  (go : bool) (t : string) :
  NoDup (keys corpus) -> In t (keys corpus) ->
  page_step corpus d (len corpus) (tabulate (keys corpus) x, go) t
  = Ok (tabulate (keys corpus) (upd x t (new_rank corpus d x t)),
        if Qltb (1 # 1000) (Qabs (new_rank corpus d x t - x t)) then true
        else go).
Proof.
  intros HK Ht.
  assert (Hne : corpus <> []) by (intros ->; contradiction).
  unfold page_step. cbn [fst snd].
  rewrite (sigma_loop corpus x t HK corpus 0 (incl_refl _)). cbn [bind].
  unfold truediv. rewrite (len_nonzero corpus Hne). cbn [bind].
  unfold getitem. rewrite (get_tabulate (keys corpus) x t Ht). cbn [bind].
  rewrite (setitem_tabulate (keys corpus) x t _ HK Ht). reflexivity.
Qed.

Lemma pass_loop_tabulate (corpus : Corpus) (d : Q) :
  NoDup (keys corpus) ->
  forall (T : list string) (x : string -> Q) (go : bool),
  incl T (keys corpus) ->
  for_each T (page_step corpus d (len corpus)) (tabulate (keys corpus) x, go)
  = Ok (tabulate (keys corpus) (gs_pass corpus d T x), gs_go corpus d T x go).
Proof.
  intros HK. induction T as [|t T IH]; intros x go Hincl.
  - reflexivity.
  - cbn [for_each gs_pass gs_go].
    rewrite page_step_tabulate by (try assumption; apply Hincl; now left).
    cbn [bind]. apply IH. intros k Hk. apply Hincl. now right.
Qed.

Lemma one_pass_tabulate (corpus : Corpus) (d : Q) (x : string -> Q) :
  NoDup (keys corpus) ->
  one_pass corpus d (len corpus) (tabulate (keys corpus) x)
  = Ok (tabulate (keys corpus) (gs_pass corpus d (keys corpus) x),
        gs_go corpus d (keys corpus) x false).
Proof.
  intros HK. unfold one_pass. rewrite keys_tabulate.
  apply pass_loop_tabulate; [assumption | apply incl_refl].
Qed.

Lemma iterate_loop_tabulate (corpus : Corpus) (d : Q) :
  NoDup (keys corpus) ->
  forall (fuel : nat) (x : string -> Q),
  iterate_loop fuel corpus d (len corpus) (tabulate (keys corpus) x)
  = option_map (fun x' => Ok (tabulate (keys corpus) x'))
      (gs_loop fuel corpus d x).
Proof.
  intros HK. induction fuel as [|fuel IH]; intros x.
  - reflexivity.
  - cbn [iterate_loop gs_loop]. rewrite one_pass_tabulate by assumption.
    destruct (gs_go corpus d (keys corpus) x false); [apply IH | reflexivity].
Qed.

Lemma iterate_init_tabulate (corpus : Corpus) :
  NoDup (keys corpus) ->
  iterate_init corpus (len corpus)
  = Ok (tabulate (keys corpus) (fun _ => 1 / inject_Z (len corpus))).
Proof.
  intros HK. unfold iterate_init.
  apply (for_each_build _ (fun _ => 1 / inject_Z (len corpus)) (keys corpus) []);
    [exact HK|].
  intros out p Hp. unfold truediv.
  assert (Hne : corpus <> []) by (intros ->; contradiction).
  now rewrite (len_nonzero corpus Hne).
Qed.

Lemma iterate_pagerank_tabulate (corpus : Corpus) (d : Q) (fuel : nat) :
  NoDup (keys corpus) ->
  iterate_pagerank fuel corpus d
  = option_map (fun x' => Ok (tabulate (keys corpus) x'))
      (gs_loop fuel corpus d (fun _ => 1 / inject_Z (len corpus))).
Proof.
  intros HK. unfold iterate_pagerank. rewrite iterate_init_tabulate by assumption.
  now apply iterate_loop_tabulate.
Qed.

(** ** Finite sums of rationals *)

Lemma Qmult_le_nonneg_l (z x y : Q) : 0 <= z -> x <= y -> z * x <= z * y.
Proof.
  intros Hz Hxy. rewrite (Qmult_comm z x), (Qmult_comm z y).
  now apply Qmult_le_compat_r.
Qed.

Section SumFacts.
Context {A : Type}.
Implicit Types (l : list A) (f g : A -> Q).

Lemma sumQ_cons (q : Q) (qs : list Q) : sumQ (q :: qs) = q + sumQ qs.
Proof. reflexivity. Qed.

Lemma sumQ_app (l1 l2 : list Q) : sumQ (l1 ++ l2) == sumQ l1 + sumQ l2.
Proof.
  induction l1 as [|q l1 IH]; simpl.
  - ring.
  - fold (sumQ (l1 ++ l2)). fold (sumQ l1). rewrite IH. ring.
Qed.

Lemma sumQ_map_ext l f g :
  (forall a, In a l -> f a == g a) -> sumQ (map f l) == sumQ (map g l).
Proof.
  induction l as [|a l IH]; intros H; simpl; [reflexivity|].
  fold (sumQ (map f l)). fold (sumQ (map g l)).
  rewrite IH by (intros; apply H; now right). rewrite (H a) by (now left).
  reflexivity.
Qed.

Lemma sumQ_map_le l f g :
  (forall a, In a l -> f a <= g a) -> sumQ (map f l) <= sumQ (map g l).
Proof.
  induction l as [|a l IH]; intros H; simpl; [lra|].
  fold (sumQ (map f l)). fold (sumQ (map g l)).
  specialize (IH (fun b Hb => H b (or_intror Hb))).
  specialize (H a (or_introl eq_refl)). lra.
Qed.

Lemma sumQ_map_nonneg l f :
  (forall a, In a l -> 0 <= f a) -> 0 <= sumQ (map f l).
Proof.
  induction l as [|a l IH]; intros H; simpl; [lra|].
  fold (sumQ (map f l)).
  specialize (IH (fun b Hb => H b (or_intror Hb))).
  specialize (H a (or_introl eq_refl)). lra.
Qed.

Lemma sumQ_map_plus l f g :
  sumQ (map (fun a => f a + g a) l) == sumQ (map f l) + sumQ (map g l).
Proof.
  induction l as [|a l IH]; simpl; [ring|].
  fold (sumQ (map (fun a => f a + g a) l)). fold (sumQ (map f l)).
  fold (sumQ (map g l)). rewrite IH. ring.
Qed.

Lemma sumQ_map_scale l f (c : Q) :
  sumQ (map (fun a => c * f a) l) == c * sumQ (map f l).
Proof.
  induction l as [|a l IH]; simpl; [ring|].
  fold (sumQ (map (fun a => c * f a) l)). fold (sumQ (map f l)).
  rewrite IH. ring.
Qed.

Lemma sumQ_map_scale_r l f (c : Q) :
  sumQ (map (fun a => f a * c) l) == sumQ (map f l) * c.
Proof.
  induction l as [|a l IH]; simpl; [ring|].
  fold (sumQ (map (fun a => f a * c) l)). fold (sumQ (map f l)).
  rewrite IH. ring.
Qed.

End SumFacts.

(** ** The update rule is linear, with non-negative weights *)

Lemma len_times_inv_le_1 {A : Type} (l : list A) :
  inject_Z (len l) * (1 / inject_Z (len l)) <= 1.
Proof.
  destruct l as [|a l].
  - vm_compute. discriminate.
  - pose proof (len_pos (a :: l) ltac:(discriminate)).
    apply Qle_lteq. right. field. lra.
Qed.

Lemma inv_len_nonneg {A : Type} (l : list A) : 0 <= 1 / inject_Z (len l).
Proof.
  destruct l as [|a l].
  - vm_compute. discriminate.
  - pose proof (len_pos (a :: l) ltac:(discriminate)).
    apply Qlt_le_weak, Qlt_shift_div_l; lra.
Qed.

Section Linear.
Variable corpus : Corpus.
Hypothesis HK : NoDup (keys corpus).

Lemma weight_nonneg e page : 0 <= weight corpus e page.
Proof.
  unfold weight. destruct (len (snd e) =? 0)%Z.
  - apply inv_len_nonneg.
  - destruct (mem page (snd e)); [apply inv_len_nonneg | lra].
Qed.

Lemma col_nonneg T e : 0 <= col corpus T e.
Proof. unfold col. apply sumQ_map_nonneg. intros; apply weight_nonneg. Qed.

Lemma col_cons t T e : col corpus (t :: T) e = weight corpus e t + col corpus T e.
Proof. reflexivity. Qed.

Lemma col_app T1 T2 e : col corpus (T1 ++ T2) e == col corpus T1 e + col corpus T2 e.
Proof. unfold col. rewrite map_app. apply sumQ_app. Qed.

Lemma row_cons e E page g :
  row corpus (e :: E) page g = weight corpus e page * g (fst e) + row corpus E page g.
Proof. reflexivity. Qed.

Lemma row_app E1 E2 page g :
  row corpus (E1 ++ E2) page g == row corpus E1 page g + row corpus E2 page g.
Proof. unfold row. rewrite map_app. apply sumQ_app. Qed.

Lemma row_ext E page g h :
  (forall k, In k (keys E) -> g k = h k) -> row corpus E page g = row corpus E page h.
Proof.
  intros H. unfold row. f_equal. apply map_ext_in. intros e He.
  rewrite H; [reflexivity|]. unfold keys. now apply in_map.
Qed.

Lemma row_nonneg E page g :
  (forall k, In k (keys E) -> 0 <= g k) -> 0 <= row corpus E page g.
Proof.
  intros H. unfold row. apply sumQ_map_nonneg. intros e He.
  apply Qmult_le_0_compat; [apply weight_nonneg|].
  apply H. unfold keys. now apply in_map.
Qed.

(** The inner loop adds up weight times rank. *)
Lemma sigma_fold_row x page E :
  forall sigma,
  fold_left (sigma_entry corpus x page) E sigma == sigma + row corpus E page x.
Proof.
  induction E as [|e E IH]; intros sigma; simpl.
  - unfold row. simpl. ring.
  - rewrite IH, row_cons. unfold sigma_entry, weight.
    destruct (len (snd e) =? 0)%Z; [unfold Qdiv; ring|].
    destruct (mem page (snd e)); unfold Qdiv; ring.
Qed.

Lemma sigma_of_row x page : sigma_of corpus x page == row corpus corpus page x.
Proof. unfold sigma_of. rewrite sigma_fold_row. ring. Qed.

Lemma row_abs E page x y :
  Qabs (row corpus E page x - row corpus E page y) <= row corpus E page (ad x y).
Proof.
  induction E as [|e E IH].
  - vm_compute. discriminate.
  - rewrite !row_cons.
    setoid_replace (weight corpus e page * x (fst e) + row corpus E page x
                    - (weight corpus e page * y (fst e) + row corpus E page y))
      with (weight corpus e page * (x (fst e) - y (fst e))
            + (row corpus E page x - row corpus E page y)) by ring.
    eapply Qle_trans; [apply Qabs_triangle|].
    rewrite Qabs_Qmult. rewrite (Qabs_pos (weight corpus e page)) by apply weight_nonneg.
    unfold ad at 1. lra.
Qed.

Lemma new_rank_diff d x y page :
  0 <= d ->
  Qabs (new_rank corpus d x page - new_rank corpus d y page)
  <= d * row corpus corpus page (ad x y).
Proof.
  intros Hd. unfold new_rank. rewrite !sigma_of_row.
  setoid_replace ((1 - d) / inject_Z (len corpus) + d * row corpus corpus page x
                  - ((1 - d) / inject_Z (len corpus) + d * row corpus corpus page y))
    with (d * (row corpus corpus page x - row corpus corpus page y)) by ring.
  rewrite Qabs_Qmult, (Qabs_pos d) by assumption.
  apply Qmult_le_nonneg_l; [assumption | apply row_abs].
Qed.

Lemma gs_pass_notin d T :
  forall x k, ~ In k T -> gs_pass corpus d T x k = x k.
Proof.
  induction T as [|t T IH]; intros x k Hk; simpl; [reflexivity|].
  rewrite IH by (intros H; apply Hk; now right).
  unfold upd. destruct (String.eqb k t) eqn:E; [|reflexivity].
  apply String.eqb_eq in E. subst. exfalso. apply Hk. now left.
Qed.

Lemma upper_ext E g h :
  (forall k, In k (keys E) -> g k = h k) -> upper corpus E g = upper corpus E h.
Proof.
  induction E as [|e E IH]; intros H; [reflexivity|].
  cbn [upper]. rewrite (row_ext (e :: E) (fst e) g h H).
  rewrite IH; [reflexivity|]. intros k Hk. apply H. now right.
Qed.

Lemma col_keys (E : list (string * list string)) e :
  col corpus (keys E) e = sumQ (map (fun e' => weight corpus e (fst e')) E).
Proof. unfold col, keys. now rewrite map_map. Qed.

Lemma ad_upd_same x y t vx vy : ad (upd x t vx) (upd y t vy) t = Qabs (vx - vy).
Proof. unfold ad, upd. now rewrite String.eqb_refl. Qed.

Lemma ad_upd_other x y t vx vy k :
  k <> t -> ad (upd x t vx) (upd y t vy) k = ad x y k.
Proof.
  intros H. unfold ad, upd. apply String.eqb_neq in H. now rewrite H.
Qed.

(** One pass from two starting points: the distance after the pass, in the
    weighted norm, against the distance before it. *)
Lemma gs_contract d :
  0 <= d ->
  forall E D x y, corpus = D ++ E ->
  Wsum corpus d E (ad (gs_pass corpus d (keys E) x) (gs_pass corpus d (keys E) y))
  <= d * sumQ (map (fun e => row corpus D (fst e) (ad x y)) E)
     + d * upper corpus E (ad x y).
Proof.
  intros Hd. induction E as [|e E IH]; intros D x y HC.
  - simpl. lra.
  - assert (Hnd : NoDup (keys D ++ fst e :: keys E)).
    { rewrite HC in HK. unfold keys in *. now rewrite map_app in HK. }
    pose proof (NoDup_remove_2 _ _ _ Hnd) as Ht.
    assert (HtD : ~ In (fst e) (keys D)) by (intros H; apply Ht, in_or_app; now left).
    assert (HtE : ~ In (fst e) (keys E)) by (intros H; apply Ht, in_or_app; now right).
    cbn [keys map gs_pass]. fold (keys E).
    set (t := fst e) in *.
    set (x1 := upd x t (new_rank corpus d x t)).
    set (y1 := upd y t (new_rank corpus d y t)).
    cbn [Wsum upper map]. rewrite sumQ_cons. fold t.
    assert (HA : ad (gs_pass corpus d (keys E) x1) (gs_pass corpus d (keys E) y1) t
                 = Qabs (new_rank corpus d x t - new_rank corpus d y t)).
    { unfold ad at 1. rewrite !gs_pass_notin by assumption.
      apply ad_upd_same. }
    rewrite HA.
    pose proof (new_rank_diff d x y t Hd) as H1.
    pose proof (row_app D (e :: E) t (ad x y)) as Hrow.
    rewrite <- HC in Hrow.
    assert (HC' : corpus = (D ++ [e]) ++ E) by (now rewrite <- app_assoc).
    specialize (IH (D ++ [e]) x1 y1 HC').
    assert (F1 : sumQ (map (fun e' => row corpus (D ++ [e]) (fst e') (ad x1 y1)) E)
                 == sumQ (map (fun e' => row corpus D (fst e') (ad x y)) E)
                    + col corpus (keys E) e
                      * Qabs (new_rank corpus d x t - new_rank corpus d y t)).
    { rewrite col_keys, <- sumQ_map_scale_r, <- sumQ_map_plus.
      apply sumQ_map_ext. intros e' _. rewrite row_app.
      rewrite (row_ext D (fst e') (ad x1 y1) (ad x y)).
      - unfold row at 2. cbn [map]. rewrite sumQ_cons. fold t.
        unfold x1, y1. rewrite ad_upd_same. simpl. ring.
      - intros k Hk. apply ad_upd_other. intros ->. contradiction. }
    assert (F3 : upper corpus E (ad x1 y1) = upper corpus E (ad x y)).
    { apply upper_ext. intros k Hk. apply ad_upd_other. intros ->. contradiction. }
    rewrite F1, F3 in IH.
    set (A := Qabs (new_rank corpus d x t - new_rank corpus d y t)) in *.
    set (c := col corpus (keys E) e) in *.
    set (W' := Wsum corpus d E _) in *.
    set (S := sumQ (map (fun e' => row corpus D (fst e') (ad x y)) E)) in *.
    set (RD := row corpus D t (ad x y)) in *.
    set (RE := row corpus (e :: E) t (ad x y)) in *.
    set (U := upper corpus E (ad x y)) in *.
    set (RC := row corpus corpus t (ad x y)) in *.
    clearbody A c W' S RD RE U RC. rewrite Hrow in H1. lra.
Qed.

Lemma upper_Lsum E g :
  upper corpus E g + Lsum corpus E g
  == sumQ (map (fun e => g (fst e) * col corpus (keys E) e) E).
Proof.
  induction E as [|e E IH].
  - simpl. ring.
  - cbn [upper Lsum map keys]. fold (keys E). rewrite sumQ_cons, row_cons, col_cons.
    assert (Hrest : sumQ (map (fun e' => g (fst e') * col corpus (fst e :: keys E) e') E)
                    == row corpus E (fst e) g
                       + sumQ (map (fun e' => g (fst e') * col corpus (keys E) e') E)).
    { unfold row. rewrite <- sumQ_map_plus. apply sumQ_map_ext.
      intros e' _. rewrite col_cons. ring. }
    rewrite Hrest, <- IH. ring.
Qed.

Lemma Wsum_split d E g :
  Wsum corpus d E g == sumQ (map (fun e => g (fst e)) E) - d * Lsum corpus E g.
Proof.
  induction E as [|e E IH].
  - simpl. ring.
  - cbn [Wsum Lsum map]. rewrite sumQ_cons, IH. ring.
Qed.

Lemma Lsum_nonneg E g :
  (forall k, In k (keys E) -> 0 <= g k) -> 0 <= Lsum corpus E g.
Proof.
  induction E as [|e E IH]; intros Hg.
  - simpl. lra.
  - cbn [Lsum].
    assert (0 <= g (fst e) * col corpus (keys E) e).
    { apply Qmult_le_0_compat; [apply Hg; now left | apply col_nonneg]. }
    assert (0 <= Lsum corpus E g) by (apply IH; intros k Hk; apply Hg; now right).
    lra.
Qed.

Lemma sumQ_indicator0 (K L : list string) (b : Q) :
  sumQ (map (fun k => if mem k L then b else 0) K)
  == inject_Z (len (filter (fun k => mem k L) K)) * b.
Proof.
  induction K as [|k K IH].
  - simpl. unfold len. simpl. ring.
  - cbn [map filter]. rewrite sumQ_cons, IH.
    destruct (mem k L); rewrite ?len_cons; ring.
Qed.

(** No item gives away more than its whole rank. *)
Lemma col_le_1 e : col corpus (keys corpus) e <= 1.
Proof.
  unfold col, weight. destruct (len (snd e) =? 0)%Z eqn:E0.
  - rewrite sumQ_const, len_keys. apply len_times_inv_le_1.
  - assert (Hne : snd e <> []) by (intros H; rewrite H in E0; discriminate).
    pose proof (len_pos (snd e) Hne) as Hpos.
    rewrite sumQ_indicator0.
    pose proof (filter_mem_length_le (keys corpus) (snd e) HK) as Hle.
    assert (Hle' : inject_Z (len (filter (fun k => mem k (snd e)) (keys corpus)))
                   <= inject_Z (len (snd e))).
    { rewrite <- Zle_Qle. unfold len. lia. }
    apply (Qmult_le_compat_r _ _ (1 / inject_Z (len (snd e)))) in Hle';
      [|apply inv_len_nonneg].
    assert (Hone : inject_Z (len (snd e)) * (1 / inject_Z (len (snd e))) == 1)
      by (field; lra).
    lra.
Qed.

Lemma col_suffix_le_1 D e E e' :
  corpus = D ++ e :: E -> col corpus (keys E) e' <= 1.
Proof.
  intros HC. pose proof (col_le_1 e') as H. rewrite HC in H at 2.
  unfold keys in H. rewrite map_app in H. cbn [map] in H.
  rewrite col_app, col_cons in H. fold (keys D) (keys E) in H.
  pose proof (col_nonneg (keys D) e'). pose proof (weight_nonneg e' (fst e)).
  lra.
Qed.

(** In the weighted norm a pass brings two rank assignments closer by the
    factor [d]. *)
Lemma pass_contract d x y :
  0 <= d <= 1 ->
  Wsum corpus d corpus
    (ad (gs_pass corpus d (keys corpus) x) (gs_pass corpus d (keys corpus) y))
  <= d * Wsum corpus d corpus (ad x y).
Proof.
  intros [Hd0 Hd1].
  pose proof (gs_contract d Hd0 corpus [] x y eq_refl) as H.
  assert (H0 : sumQ (map (fun e => row corpus [] (fst e) (ad x y)) corpus) == 0).
  { rewrite (sumQ_map_ext _ _ (fun _ => 0 * 0)).
    - rewrite sumQ_map_scale. ring.
    - intros e _. unfold row. simpl. ring. }
  rewrite H0 in H.
  assert (Hg : forall k, In k (keys corpus) -> 0 <= ad x y k)
    by (intros; apply Qabs_nonneg).
  pose proof (upper_Lsum corpus (ad x y)) as HU.
  pose proof (Wsum_split d corpus (ad x y)) as HW.
  pose proof (Lsum_nonneg corpus (ad x y) Hg) as HL.
  assert (Hsum : sumQ (map (fun e => ad x y (fst e) * col corpus (keys corpus) e) corpus)
                 <= sumQ (map (fun e => ad x y (fst e)) corpus)).
  { apply sumQ_map_le. intros e _.
    rewrite <- (Qmult_1_r (ad x y (fst e))) at 2.
    apply Qmult_le_nonneg_l; [apply Qabs_nonneg | apply col_le_1]. }
  assert (HdL : 0 <= (1 - d) * Lsum corpus corpus (ad x y))
    by (apply Qmult_le_0_compat; lra).
  assert (Hup : upper corpus corpus (ad x y) <= Wsum corpus d corpus (ad x y)) by lra.
  apply (Qmult_le_nonneg_l d) in Hup; [|assumption]. lra.
Qed.

(** Every page counts in the weighted norm with a weight of at least
    [1 - d]. *)
Lemma Wsum_lower d g k :
  0 <= d <= 1 ->
  (forall k', In k' (keys corpus) -> 0 <= g k') ->
  forall E D, corpus = D ++ E ->
  0 <= Wsum corpus d E g /\ (In k (keys E) -> (1 - d) * g k <= Wsum corpus d E g).
Proof.
  intros [Hd0 Hd1] Hg. induction E as [|e E IH]; intros D HC.
  - simpl. split; [lra | tauto].
  - assert (HC' : corpus = (D ++ [e]) ++ E) by (now rewrite <- app_assoc).
    destruct (IH _ HC') as [IH0 IHk]. cbn [Wsum].
    pose proof (col_suffix_le_1 D e E e HC) as Hc1.
    pose proof (col_nonneg (keys E) e) as Hc0.
    assert (Hge : 0 <= g (fst e)).
    { apply Hg. rewrite HC. unfold keys. rewrite map_app. apply in_or_app.
      right. now left. }
    set (c := col corpus (keys E) e) in *. set (G := g (fst e)) in *.
    assert (H1 : 0 <= G * (d * (1 - c))).
    { apply Qmult_le_0_compat; [assumption|]. apply Qmult_le_0_compat; lra. }
    assert (H2 : 0 <= G * (1 - d)) by (apply Qmult_le_0_compat; lra).
    split; [lra|]. cbn [keys map]. intros [Hk | Hk].
    + subst k. fold G. lra.
    + specialize (IHk Hk). lra.
Qed.

Lemma Qltb_false (a b : Q) : Qltb a b = false <-> b <= a.
Proof.
  unfold Qltb. rewrite negb_false_iff. apply Qle_bool_iff.
Qed.

(** The flag stays [False] exactly when no page of the pass moved by more
    than the threshold. *)
Lemma gs_go_false d T :
  NoDup T ->
  forall x go,
  gs_go corpus d T x go = false
  <-> go = false /\
      forall t, In t T -> ad (gs_pass corpus d T x) x t <= 1 # 1000.
Proof.
  induction T as [|t T IH]; intros Hnd x go.
  - simpl. split; [intros ->; split; [reflexivity | tauto] | tauto].
  - inversion Hnd; subst. cbn [gs_go gs_pass]. rewrite (IH H2).
    set (x1 := upd x t (new_rank corpus d x t)).
    assert (Hsame : ad (gs_pass corpus d T x1) x t
                    = Qabs (new_rank corpus d x t - x t)).
    { unfold ad. rewrite gs_pass_notin by assumption. unfold x1, upd.
      now rewrite String.eqb_refl. }
    assert (Hother : forall t', In t' T ->
              ad (gs_pass corpus d T x1) x1 t' = ad (gs_pass corpus d T x1) x t').
    { intros t' Ht'. unfold ad. f_equal. f_equal. f_equal. unfold x1, upd.
      destruct (String.eqb t' t) eqn:E; [|reflexivity].
      apply String.eqb_eq in E. subst. contradiction. }
    split.
    + intros [Hgo Hall].
      destruct (Qltb (1 # 1000) (Qabs (new_rank corpus d x t - x t))) eqn:E;
        [discriminate|].
      split; [assumption|]. intros t' [<- | Ht'].
      * rewrite Hsame. now apply Qltb_false.
      * rewrite <- Hother by assumption. now apply Hall.
    + intros [-> Hall]. split.
      * assert (E : Qltb (1 # 1000) (Qabs (new_rank corpus d x t - x t)) = false).
        { apply Qltb_false. rewrite <- Hsame. apply Hall. now left. }
        now rewrite E.
      * intros t' Ht'. rewrite Hother by assumption. apply Hall. now right.
Qed.

End Linear.

(** ** Termination of the iteration

    On exact rationals the loop of [iterate_pagerank] ends for every damping
    factor [d] in [0,1): a pass shrinks a weighted sum of the changes of the
    ranks by the factor [d].  The closer [d] is to 1, the less a pass gains
    and the more rounding, which is left out here, weighs. *)

Lemma qpow_nonneg (d : Q) (n : nat) : 0 <= d -> 0 <= qpow d n.
Proof.
  intros Hd. induction n as [|n IH]; simpl; [lra|].
  now apply Qmult_le_0_compat.
Qed.

Lemma qpow_bernoulli (d : Q) (n : nat) :
  0 <= d <= 1 ->
  (1 + inject_Z (Z.of_nat n) * (1 - d)) * qpow d n <= 1.
Proof.
  intros [Hd0 Hd1]. induction n as [|n IH].
  - cbn [qpow Z.of_nat]. change (inject_Z 0) with 0. lra.
  - rewrite Nat2Z.inj_succ, <- Z.add_1_r, inject_Z_plus. cbn [qpow].
    pose proof (qpow_nonneg d n Hd0) as HP.
    assert (Ha : 0 <= inject_Z (Z.of_nat n)).
    { change 0 with (inject_Z 0). rewrite <- Zle_Qle. lia. }
    set (a := inject_Z (Z.of_nat n)) in *. set (P := qpow d n) in *.
    assert (H : 0 <= ((a + 1) * ((1 - d) * (1 - d))) * P).
    { apply Qmult_le_0_compat; [|assumption].
      apply Qmult_le_0_compat; [lra|]. apply Qmult_le_0_compat; lra. }
    change (inject_Z 1) with 1. lra.
Qed.

Lemma qpow_small (d W eps : Q) :
  0 <= d < 1 -> 0 <= W -> 0 < eps -> exists n, qpow d n * W <= eps.
Proof.
  intros [Hd0 Hd1] HW Heps.
  set (q := W / ((1 - d) * eps)).
  assert (Hden : 0 < (1 - d) * eps) by (apply Qmult_lt_0_compat; lra).
  exists (Z.to_nat (Qceiling q)).
  pose proof (Qle_ceiling q) as Hq.
  assert (Hn : q <= inject_Z (Z.of_nat (Z.to_nat (Qceiling q)))).
  { eapply Qle_trans; [exact Hq|]. rewrite <- Zle_Qle. lia. }
  set (n := Z.to_nat (Qceiling q)) in *.
  set (a := inject_Z (Z.of_nat n)) in *.
  assert (HWa : W <= a * ((1 - d) * eps)).
  { apply (Qmult_le_compat_r _ _ ((1 - d) * eps)) in Hn; [|lra].
    assert (Hqe : q * ((1 - d) * eps) == W) by (unfold q; field; lra).
    lra. }
  pose proof (qpow_bernoulli d n ltac:(lra)) as HB. fold a in HB.
  pose proof (qpow_nonneg d n Hd0) as HP.
  set (P := qpow d n) in *.
  apply (Qmult_le_nonneg_l P) in HWa; [|assumption].
  apply (Qmult_le_compat_r _ _ eps) in HB; [|lra].
  assert (0 <= P * eps) by (apply Qmult_le_0_compat; lra).
  lra.
Qed.

Section Convergence.
Variable corpus : Corpus.
Variable d : Q.
Hypothesis HK : NoDup (keys corpus).
Hypothesis Hd : 0 <= d < 1.

Lemma W_nonneg x y : 0 <= Wsum corpus d corpus (ad x y).
Proof.
  apply (Wsum_lower corpus HK d (ad x y) EmptyString ltac:(lra)
           (fun k _ => Qabs_nonneg _) corpus [] eq_refl).
Qed.

(** A pass that moves the ranks little enough in the weighted norm is the
    last one. *)
Lemma small_step_stops x :
  Wsum corpus d corpus (ad (gs_pass corpus d (keys corpus) x) x)
  <= (1 - d) * (1 # 1000) ->
  gs_go corpus d (keys corpus) x false = false.
Proof.
  intros HWx. apply (gs_go_false corpus d (keys corpus) HK). split; [reflexivity|].
  intros t Ht.
  destruct (Wsum_lower corpus HK d (ad (gs_pass corpus d (keys corpus) x) x) t
              ltac:(lra) (fun k _ => Qabs_nonneg _) corpus [] eq_refl)
    as [_ Hlow].
  specialize (Hlow Ht).
  assert (H : (1 - d) * ad (gs_pass corpus d (keys corpus) x) x t
              <= (1 - d) * (1 # 1000)) by lra.
  apply Qmult_le_l in H; [assumption | lra].
Qed.

Lemma gs_loop_stops :
  forall fuel x,
  qpow d fuel * Wsum corpus d corpus (ad (gs_pass corpus d (keys corpus) x) x)
  <= (1 - d) * (1 # 1000) ->
  exists x', gs_loop (S fuel) corpus d x = Some x'.
Proof.
  induction fuel as [|fuel IH]; intros x Hx.
  - cbn [qpow] in Hx. cbn [gs_loop].
    rewrite small_step_stops by lra. eexists. reflexivity.
  - change (gs_loop (S (S fuel)) corpus d x)
      with (if gs_go corpus d (keys corpus) x false
            then gs_loop (S fuel) corpus d (gs_pass corpus d (keys corpus) x)
            else Some (gs_pass corpus d (keys corpus) x)).
    destruct (gs_go corpus d (keys corpus) x false); [|eexists; reflexivity].
    apply IH.
    pose proof (pass_contract corpus HK d (gs_pass corpus d (keys corpus) x) x
                  ltac:(lra)) as Hc.
    pose proof (qpow_nonneg d fuel ltac:(lra)) as HP.
    apply (Qmult_le_nonneg_l (qpow d fuel)) in Hc; [|assumption].
    cbn [qpow] in Hx. lra.
Qed.

Lemma gs_loop_terminates x : exists fuel x', gs_loop fuel corpus d x = Some x'.
Proof.
  destruct (qpow_small d
              (Wsum corpus d corpus (ad (gs_pass corpus d (keys corpus) x) x))
              ((1 - d) * (1 # 1000)))
    as [n Hn]; [assumption | apply W_nonneg | lra |].
  exists (S n). now apply gs_loop_stops.
Qed.

End Convergence.


Lemma iterate_loop_more_fuel (corpus : Corpus) (d : Q) (N : Z) :
  forall fuel fuel' result r,
  iterate_loop fuel corpus d N result = Some r -> (fuel <= fuel')%nat ->
  iterate_loop fuel' corpus d N result = Some r.
Proof.
  induction fuel as [|fuel IH]; intros fuel' result r H Hle; [discriminate|].
  destruct fuel' as [|fuel']; [lia|]. cbn [iterate_loop] in *.
  destruct (one_pass corpus d N result) as [[result' go]|e]; [|assumption].
  destruct go; [|assumption]. apply (IH fuel'); [assumption | lia].
Qed.

Lemma iterate_pagerank_more_fuel (corpus : Corpus) (d : Q) :
  forall fuel fuel' r,
  iterate_pagerank fuel corpus d = Some r -> (fuel <= fuel')%nat ->
  iterate_pagerank fuel' corpus d = Some r.
Proof.
  unfold iterate_pagerank. intros fuel fuel' r.
  destruct (iterate_init corpus (len corpus)); [|tauto].
  apply iterate_loop_more_fuel.
Qed.

(** Two runs that both finish return the same value. *)
Lemma iterate_pagerank_functional (corpus : Corpus) (d : Q) :
  forall fuel1 fuel2 r1 r2,
  iterate_pagerank fuel1 corpus d = Some r1 ->
  iterate_pagerank fuel2 corpus d = Some r2 ->
  r1 = r2.
Proof.
  intros fuel1 fuel2 r1 r2 H1 H2.
  apply (iterate_pagerank_more_fuel _ _ _ (Nat.max fuel1 fuel2)) in H1; [|lia].
  apply (iterate_pagerank_more_fuel _ _ _ (Nat.max fuel1 fuel2)) in H2; [|lia].
  congruence.
Qed.

Lemma iterate_pagerank_terminates (corpus : Corpus) (d : Q) :
  NoDup (keys corpus) -> 0 <= d < 1 ->
  exists fuel x,
    iterate_pagerank fuel corpus d = Some (Ok (tabulate (keys corpus) x))
    /\ gs_loop fuel corpus d (fun _ => 1 / inject_Z (len corpus)) = Some x.
Proof.
  intros HK Hd.
  destruct (gs_loop_terminates corpus d HK Hd (fun _ => 1 / inject_Z (len corpus)))
    as [fuel [x Hx]].
  exists fuel, x. split; [|assumption].
  rewrite iterate_pagerank_tabulate by assumption. now rewrite Hx.
Qed.

(** ** The pass in the words of the specification *)

Lemma sigma_fold_contribution (corpus : Corpus) (x : string -> Q) (page : string)
  (E : list (string * list string)) :
  forall sigma,
  fold_left (sigma_entry corpus x page) E sigma
  == sigma + sumQ (map (contribution corpus x page) E).
Proof.
  induction E as [|e E IH]; intros sigma; simpl.
  - ring.
  - fold (sumQ (map (contribution corpus x page) E)). rewrite IH.
    unfold sigma_entry, contribution.
    destruct (len (snd e) =? 0)%Z; [ring|].
    destruct (mem page (snd e)); ring.
Qed.

Lemma new_rank_spec (corpus : Corpus) (d : Q) (x : string -> Q) (page : string) :
  new_rank corpus d x page == spec_new_rank corpus d x page.
Proof.
  unfold new_rank, spec_new_rank, sigma_of. rewrite sigma_fold_contribution. ring.
Qed.

Lemma spec_new_rank_ext (corpus : Corpus) (d : Q) (x y : string -> Q)
  (page : string) :
  (forall k, In k (keys corpus) -> x k = y k) ->
  spec_new_rank corpus d x page = spec_new_rank corpus d y page.
Proof.
  intros H. unfold spec_new_rank. do 3 f_equal. apply map_ext_in.
  intros e He. unfold contribution.
  rewrite (H (fst e)); [reflexivity|]. unfold keys. now apply in_map.
Qed.

Lemma gs_pass_app (corpus : Corpus) (d : Q) (T1 T2 : list string) :
  forall x,
  gs_pass corpus d (T1 ++ T2) x = gs_pass corpus d T2 (gs_pass corpus d T1 x).
Proof.
  induction T1 as [|t T1 IH]; intros x; simpl; [reflexivity | apply IH].
Qed.

(** The rank written for the page [p] that comes after [pre] and before
    [post] in the order of the dict. *)
Lemma gs_pass_at (corpus : Corpus) (d : Q) (pre post : list string) (p : string)
  (x : string -> Q) :
  NoDup (pre ++ p :: post) ->
  gs_pass corpus d (pre ++ p :: post) x p
  = new_rank corpus d (gs_pass corpus d pre x) p.
Proof.
  intros Hnd. rewrite gs_pass_app. cbn [gs_pass].
  rewrite gs_pass_notin.
  - unfold upd. now rewrite String.eqb_refl.
  - apply NoDup_remove_2 in Hnd. intros H. apply Hnd, in_or_app. now right.
Qed.

Lemma gs_pass_seen (corpus : Corpus) (d : Q) (pre post : list string) (p : string)
  (x : string -> Q) :
  NoDup (pre ++ p :: post) ->
  forall q,
  gs_pass corpus d pre x q = seen pre x (gs_pass corpus d (pre ++ p :: post) x) q.
Proof.
  intros Hnd q. unfold seen. destruct (mem q pre) eqn:E.
  - apply mem_In in E. rewrite gs_pass_app. symmetry. apply gs_pass_notin.
    intros Hin. revert Hnd E Hin. clear. induction pre as [|a pre IH]; simpl.
    + tauto.
    + intros Hnd [->|E] Hin; inversion Hnd; subst.
      * apply H1, in_or_app. now right.
      * now apply IH.
  - apply mem_not_In in E. now apply gs_pass_notin.
Qed.

Lemma rank_of_tabulate (K : list string) (f : string -> Q) (k : string) :
  In k K -> rank_of (tabulate K f) k = f k.
Proof. intros H. unfold rank_of. now rewrite get_tabulate. Qed.

Lemma tabulate_rank_of (r : dict Q) :
  NoDup (keys r) -> r = tabulate (keys r) (rank_of r).
Proof. intros H. symmetry. apply (tabulate_get r H 0). Qed.

Lemma get_tabulate_inv {V : Type} (K : list string) (f : string -> V) k v :
  get (tabulate K f) k = Some v -> In k K /\ v = f k.
Proof.
  intros H. assert (Hin : In k K).
  { destruct (in_dec string_dec k K) as [Hin|Hout]; [assumption|].
    rewrite <- (keys_tabulate K f) in Hout. apply get_None in Hout. congruence. }
  split; [assumption|]. rewrite (get_tabulate K f k Hin) in H. congruence.
Qed.

(** ** The lower bound on the ranks *)

Section LowerBound.
Variable corpus : Corpus.
Variable d : Q.
Hypothesis HK : NoDup (keys corpus).
Hypothesis Hd : 0 <= d <= 1.


Lemma base_nonneg : 0 <= (1 - d) / inject_Z (len corpus).
Proof.
  unfold Qdiv. apply Qmult_le_0_compat; [lra|].
  pose proof (inv_len_nonneg corpus) as H. unfold Qdiv in H. lra.
Qed.

Lemma base_le_init : (1 - d) / inject_Z (len corpus) <= 1 / inject_Z (len corpus).
Proof.
  unfold Qdiv. apply Qmult_le_compat_r; [lra|].
  pose proof (inv_len_nonneg corpus) as H. unfold Qdiv in H. lra.
Qed.

Lemma new_rank_lower x page :
  (forall k, In k (keys corpus) -> (1 - d) / inject_Z (len corpus) <= x k) ->
  (1 - d) / inject_Z (len corpus) <= new_rank corpus d x page.
Proof.
  intros Hx. unfold new_rank. rewrite sigma_of_row.
  assert (Hrow : 0 <= row corpus corpus page x).
  { apply row_nonneg. intros k Hk. pose proof (Hx k Hk). pose proof base_nonneg. lra. }
  assert (0 <= d * row corpus corpus page x) by (apply Qmult_le_0_compat; lra).
  lra.
Qed.

Lemma bounded_init r :
  iterate_init corpus (len corpus) = Ok r ->
  bounded corpus d (Config r (keys r) false).
Proof.
  rewrite iterate_init_tabulate by assumption. intros [= <-].
  exists (fun _ => 1 / inject_Z (len corpus)). cbn [cfg_result cfg_todo].
  repeat split.
  - intros k _. apply base_le_init.
  - rewrite keys_tabulate. apply incl_refl.
Qed.

Lemma bounded_step c c' : bounded corpus d c -> step corpus d c c' -> bounded corpus d c'.
Proof.
  intros [x [Hr [Hx Htodo]]] Hstep. destruct Hstep as [r page rest go r' go' Hps | r].
  - cbn [cfg_result cfg_todo] in *. subst r.
    assert (Hpage : In page (keys corpus)) by (apply Htodo; now left).
    rewrite page_step_tabulate in Hps by assumption. injection Hps as <- <-.
    exists (upd x page (new_rank corpus d x page)). cbn [cfg_result cfg_todo].
    repeat split.
    + intros k Hk. unfold upd. destruct (String.eqb k page).
      * now apply new_rank_lower.
      * now apply Hx.
    + intros k Hk. apply Htodo. now right.
  - cbn [cfg_result cfg_todo] in *. exists x. cbn [cfg_result cfg_todo].
    repeat split; try assumption. rewrite Hr, keys_tabulate. apply incl_refl.
Qed.

Lemma reachable_bounded c : reachable corpus d c -> bounded corpus d c.
Proof.
  induction 1 as [r Hr | c c' _ IH Hstep].
  - now apply bounded_init.
  - now apply (bounded_step c c').
Qed.

Lemma bounded_values c p v :
  bounded corpus d c -> get (cfg_result c) p = Some v -> (1 - d) / inject_Z (len corpus) <= v.
Proof.
  intros [x [Hr [Hx _]]] Hget. rewrite Hr in Hget.
  apply get_tabulate_inv in Hget as [Hin ->]. now apply Hx.
Qed.

(** The runs of [iterate_pagerank] are runs of the machine. *)
Lemma pass_reachable :
  forall T r go r' go',
  reachable corpus d (Config r T go) ->
  for_each T (page_step corpus d (len corpus)) (r, go) = Ok (r', go') ->
  reachable corpus d (Config r' [] go').
Proof.
  induction T as [|t T IH]; intros r go r' go' Hreach Hrun.
  - cbn [for_each] in Hrun. now injection Hrun as <- <-.
  - cbn [for_each] in Hrun.
    destruct (page_step corpus d (len corpus) (r, go) t) as [[r1 go1]|e] eqn:E;
      [|discriminate].
    cbn [bind] in Hrun. apply (IH r1 go1); [|assumption].
    eapply reach_step; [exact Hreach|]. now constructor.
Qed.

Lemma iterate_loop_reachable :
  forall fuel r r',
  reachable corpus d (Config r (keys r) false) ->
  iterate_loop fuel corpus d (len corpus) r = Some (Ok r') ->
  reachable corpus d (Config r' [] false).
Proof.
  induction fuel as [|fuel IH]; intros r r' Hreach Hrun; [discriminate|].
  cbn [iterate_loop] in Hrun.
  destruct (one_pass corpus d (len corpus) r) as [[r1 go1]|e] eqn:E;
    [|discriminate].
  pose proof (pass_reachable _ _ _ _ _ Hreach E) as H1.
  destruct go1.
  - apply (IH r1); [|assumption]. eapply reach_step; [exact H1|]. constructor.
  - now injection Hrun as <-.
Qed.

Lemma iterate_pagerank_reachable fuel r :
  iterate_pagerank fuel corpus d = Some (Ok r) ->
  reachable corpus d (Config r [] false).
Proof.
  unfold iterate_pagerank.
  destruct (iterate_init corpus (len corpus)) as [r0|e] eqn:E; [|discriminate].
  apply iterate_loop_reachable. now constructor.
Qed.

End LowerBound.

(** ** The last pass of the iteration *)

Lemma gs_loop_last (corpus : Corpus) (d : Q) :
  forall fuel x x',
  gs_loop fuel corpus d x = Some x' ->
  exists y, x' = gs_pass corpus d (keys corpus) y
            /\ gs_go corpus d (keys corpus) y false = false.
Proof.
  induction fuel as [|fuel IH]; intros x x' H; [discriminate|].
  cbn [gs_loop] in H.
  destruct (gs_go corpus d (keys corpus) x false) eqn:E.
  - now apply (IH _ _ H).
  - injection H as <-. now exists x.
Qed.

Lemma iterate_never_raises (corpus : Corpus) (d : Q) (fuel : nat) (e : exn) :
  NoDup (keys corpus) ->
  iterate_pagerank fuel corpus d <> Some (Raise e).
Proof.
  intros HK. rewrite iterate_pagerank_tabulate by assumption.
  destruct (gs_loop fuel corpus d _); discriminate.
Qed.

(** ** sample_pagerank without a positive sample count *)

Lemma sample_pagerank_no_rounds (corpus : Corpus) (d : Q) (n : Z) (rng : nat -> Q) :
  NoDup (keys corpus) -> (n <= 0)%Z ->
  sample_pagerank corpus d n rng
  = normalise (tabulate (keys corpus) (fun _ => 0%Z)) n.
Proof.
  intros HK Hn. unfold sample_pagerank.
  replace (Z.to_nat n) with 0%nat by lia. cbn [seq for_each bind].
  now rewrite sample_init_tabulate.
Qed.

Lemma normalise_zero (K : list string) (c : string -> Z) :
  K <> [] -> normalise (tabulate K c) 0 = Raise ZeroDivisionError.
Proof.
  destruct K as [|t T]; [congruence|]. intros _.
  unfold normalise. cbn [tabulate map keys fst for_each].
  unfold getitem. cbn [get]. now rewrite String.eqb_refl.
Qed.

(** ** The order in which a link set is enumerated *)

Lemma mem_perm (p : string) (l l' : list string) :
  Permutation l l' -> mem p l = mem p l'.
Proof.
  intros HP. destruct (mem p l') eqn:E.
  - apply mem_In. apply mem_In in E. eapply Permutation_in; [|exact E].
    now apply Permutation_sym.
  - apply mem_not_In. apply mem_not_In in E. intros H. apply E.
    eapply Permutation_in; eassumption.
Qed.

Lemma len_perm (l l' : list string) : Permutation l l' -> len l = len l'.
Proof. intros HP. unfold len. now rewrite (Permutation_length HP). Qed.

Lemma same_graph_keys (c c' : Corpus) : same_graph c c' -> keys c = keys c'.
Proof.
  induction 1 as [|e e' c c' [He _] _ IH]; [reflexivity|].
  cbn [keys map]. fold (keys c) (keys c'). now rewrite He, IH.
Qed.

Lemma same_graph_len (c c' : Corpus) : same_graph c c' -> len c = len c'.
Proof.
  intros H. rewrite <- (len_keys c), <- (len_keys c').
  now rewrite (same_graph_keys c c' H).
Qed.

Lemma same_graph_refl (c : Corpus) : same_graph c c.
Proof.
  induction c as [|e c IH]; constructor; [|exact IH].
  split; [reflexivity | apply Permutation_refl].
Qed.

Section SameGraph.
Variables corpus corpus' : Corpus.
Variable d : Q.
Hypothesis Hsame : same_graph corpus corpus'.

Lemma sigma_fold_same (x : string -> Q) (page : string) :
  forall E E',
  Forall2 (fun e e' => fst e = fst e' /\ Permutation (snd e) (snd e')) E E' ->
  forall sigma,
  fold_left (sigma_entry corpus x page) E sigma
  = fold_left (sigma_entry corpus' x page) E' sigma.
Proof.
  induction 1 as [|e e' E E' [He HP] _ IH]; intros sigma; [reflexivity|].
  cbn [fold_left].
  replace (sigma_entry corpus' x page sigma e')
    with (sigma_entry corpus x page sigma e); [apply IH|].
  unfold sigma_entry.
  now rewrite He, (len_perm _ _ HP), (mem_perm page _ _ HP),
    (same_graph_len _ _ Hsame).
Qed.

Lemma new_rank_same (x : string -> Q) (page : string) :
  new_rank corpus d x page = new_rank corpus' d x page.
Proof.
  unfold new_rank, sigma_of.
  now rewrite (sigma_fold_same x page _ _ Hsame), (same_graph_len _ _ Hsame).
Qed.

Lemma gs_pass_same (T : list string) :
  forall x, gs_pass corpus d T x = gs_pass corpus' d T x.
Proof.
  induction T as [|t T IH]; intros x; [reflexivity|].
  cbn [gs_pass]. now rewrite new_rank_same, IH.
Qed.

Lemma gs_go_same (T : list string) :
  forall x go, gs_go corpus d T x go = gs_go corpus' d T x go.
Proof.
  induction T as [|t T IH]; intros x go; [reflexivity|].
  cbn [gs_go]. now rewrite new_rank_same, IH.
Qed.

Lemma gs_loop_same (fuel : nat) :
  forall x, gs_loop fuel corpus d x = gs_loop fuel corpus' d x.
Proof.
  induction fuel as [|fuel IH]; intros x; [reflexivity|].
  cbn [gs_loop]. rewrite <- (same_graph_keys _ _ Hsame).
  now rewrite gs_go_same, gs_pass_same, IH.
Qed.

Lemma iterate_pagerank_same (fuel : nat) :
  NoDup (keys corpus) ->
  iterate_pagerank fuel corpus d = iterate_pagerank fuel corpus' d.
Proof.
  intros HK.
  assert (HK' : NoDup (keys corpus'))
    by (now rewrite <- (same_graph_keys _ _ Hsame)).
  rewrite !iterate_pagerank_tabulate by assumption.
  now rewrite gs_loop_same, (same_graph_keys _ _ Hsame),
    (same_graph_len _ _ Hsame).
Qed.

End SameGraph.

(** * The claims *)

(** C1, as stated, fails: on the graph [a -> b], [b] a sink, with damping
    1/2, the first pass writes 9/16 for [b], because it reads the rank of
    [a] that the same pass has just written (3/8); the rule applied to the
    ranks of the previous pass (1/2 for both pages) gives 5/8. *)
Lemma C1_counterexample :
  exists result result' go,
    iterate_init corpus_ab (len corpus_ab) = Ok result
    /\ one_pass corpus_ab (1 # 2) (len corpus_ab) result = Ok (result', go)
    /\ rank_of result' "b" == 9 # 16
    /\ spec_new_rank corpus_ab (1 # 2) (rank_of result) "b" == 5 # 8
    /\ ~ rank_of result' "b"
         == spec_new_rank corpus_ab (1 # 2) (rank_of result) "b".
Proof.
  eexists. eexists. eexists.
  split; [reflexivity|]. split; [reflexivity|].
  split; [reflexivity|]. split; [reflexivity|].
  vm_compute. discriminate.
Qed.

(** C1, as the code has it.  A pass of [iterate_pagerank] over a dict with
    the keys of the graph succeeds and keeps the keys; the rank it writes
    for a page [p] is [(1 - d)/N + d * (sum of the contributions of all
    pages)], where the contribution of a sink is [rank/N], of a page that
    links to [p] is [rank/|links|], and of any other page is 0, and where
    the rank read for a page visited before [p] in the same pass is the rank
    already written by this pass, and for [p] and the pages after it the
    rank of the previous pass. *)
Theorem C1_pass_updates_in_place (corpus : Corpus) (d : Q) (result : dict Q) :
  is_dict corpus = true ->
  keys result = keys corpus ->
  exists result' go,
    one_pass corpus d (len corpus) result = Ok (result', go)
    /\ keys result' = keys corpus
    /\ forall pre p post,
         keys corpus = pre ++ p :: post ->
         rank_of result' p
         == spec_new_rank corpus d
              (seen pre (rank_of result) (rank_of result')) p.
Proof.
  intros Hdict Hkeys. pose proof (is_dict_keys _ Hdict) as HK.
  assert (Hres : result = tabulate (keys corpus) (rank_of result)).
  { rewrite <- Hkeys. apply tabulate_rank_of. now rewrite Hkeys. }
  set (x := rank_of result) in *.
  exists (tabulate (keys corpus) (gs_pass corpus d (keys corpus) x)).
  exists (gs_go corpus d (keys corpus) x false).
  split; [rewrite Hres; now apply one_pass_tabulate|].
  split; [apply keys_tabulate|].
  intros pre p post Hsplit.
  assert (Hp : In p (keys corpus)).
  { rewrite Hsplit. apply in_or_app. right. now left. }
  rewrite rank_of_tabulate by assumption.
  assert (Hnd : NoDup (pre ++ p :: post)) by (now rewrite <- Hsplit).
  rewrite Hsplit at 1. rewrite (gs_pass_at corpus d pre post p x Hnd).
  rewrite new_rank_spec.
  rewrite (spec_new_rank_ext corpus d (gs_pass corpus d pre x)
             (seen pre x (rank_of (tabulate (keys corpus)
                                     (gs_pass corpus d (keys corpus) x))))).
  - reflexivity.
  - intros k Hk. rewrite (gs_pass_seen corpus d pre post p x Hnd).
    unfold seen. rewrite rank_of_tabulate by assumption.
    now rewrite Hsplit.
Qed.

Lemma C1_pass_updates_in_place_witness :
  is_dict corpus_ab = true
  /\ keys [("a"%string, 1 # 2); ("b"%string, 1 # 2)] = keys corpus_ab
  /\ exists result' go,
       one_pass corpus_ab (1 # 2) (len corpus_ab)
         [("a"%string, 1 # 2); ("b"%string, 1 # 2)] = Ok (result', go)
       /\ keys result' = keys corpus_ab
       /\ forall pre p post,
            keys corpus_ab = pre ++ p :: post ->
            rank_of result' p
            == spec_new_rank corpus_ab (1 # 2)
                 (seen pre (rank_of [("a"%string, 1 # 2); ("b"%string, 1 # 2)])
                    (rank_of result')) p.
Proof.
  split; [reflexivity|]. split; [reflexivity|].
  apply (C1_pass_updates_in_place corpus_ab (1 # 2)
           [("a"%string, 1 # 2); ("b"%string, 1 # 2)]); reflexivity.
Defined.

(** C2.  On a well-formed graph, for a page with [k >= 1] links and a
    damping factor in (0,1), [transition_model] returns a dict whose keys
    are the universe; a page linked from the given page gets
    [(1 - d)/N + d/k], any other page gets [(1 - d)/N]; no value is
    negative; the values add up to 1, hence to 1 within 1e-9. *)
Theorem C2_transition_linked (corpus : Corpus) (page : string)
  (links : list string) (d : Q) :
  well_formed corpus = true ->
  get corpus page = Some links ->
  (1 <= len links)%Z ->
  0 < d < 1 ->
  exists r,
    transition_model corpus page d = Ok r
    /\ keys r = keys corpus
    /\ (forall p, In p (keys corpus) ->
          get r p
          = Some (if mem p links
                  then (1 - d) / inject_Z (len corpus) + d / inject_Z (len links)
                  else (1 - d) / inject_Z (len corpus)))
    /\ (forall p v, get r p = Some v -> 0 <= v)
    /\ total r == 1
    /\ Qabs (total r - 1) <= 1 # 1000000000.
Proof.
  intros Hwf Hget Hk Hd.
  pose proof (is_dict_keys _ (well_formed_is_dict _ Hwf)) as HK.
  destruct (well_formed_links _ _ _ Hwf Hget) as [Hnd Hincl].
  assert (Hne : links <> []) by (intros ->; unfold len in Hk; simpl in Hk; lia).
  assert (Hcne : corpus <> []) by (eapply get_nonempty, Hget).
  assert (HKne : keys corpus <> []) by (destruct corpus; [congruence | discriminate]).
  eexists. split; [now apply (transition_links corpus page links d)|].
  assert (Htot : total (tabulate (keys corpus)
                   (fun k => if mem k links
                             then (1 - d) / inject_Z (len corpus)
                                  + d / inject_Z (len links)
                             else (1 - d) / inject_Z (len corpus))) == 1).
  { rewrite <- (len_keys corpus). now apply transition_links_total. }
  split; [apply keys_tabulate|].
  split; [intros p Hp; now rewrite get_tabulate|].
  split; [|split; [exact Htot|]].
  - intros p v Hv. apply get_tabulate_inv in Hv as [_ ->].
    pose proof (len_pos corpus Hcne) as HN. pose proof (len_pos links Hne) as HL.
    assert (H1 : 0 <= (1 - d) / inject_Z (len corpus))
      by (apply Qle_shift_div_l; lra).
    assert (H2 : 0 <= d / inject_Z (len links)) by (apply Qle_shift_div_l; lra).
    destruct (mem p links); lra.
  - rewrite Htot. vm_compute. discriminate.
Qed.

Lemma C2_transition_linked_witness :
  well_formed corpus_ring = true
  /\ get corpus_ring "c" = Some ["a"; "b"]%string
  /\ (1 <= len ["a"; "b"]%string)%Z
  /\ 0 < 1 # 2 < 1
  /\ exists r,
       transition_model corpus_ring "c" (1 # 2) = Ok r
       /\ keys r = keys corpus_ring
       /\ (forall p, In p (keys corpus_ring) ->
             get r p
             = Some (if mem p ["a"; "b"]%string
                     then (1 - (1 # 2)) / inject_Z (len corpus_ring)
                          + (1 # 2) / inject_Z (len ["a"; "b"]%string)
                     else (1 - (1 # 2)) / inject_Z (len corpus_ring)))
       /\ (forall p v, get r p = Some v -> 0 <= v)
       /\ total r == 1
       /\ Qabs (total r - 1) <= 1 # 1000000000.
Proof.
  split; [reflexivity|]. split; [reflexivity|].
  split; [vm_compute; discriminate|]. split; [split; reflexivity|].
  apply (C2_transition_linked corpus_ring "c" ["a"; "b"]%string (1 # 2)).
  - reflexivity.
  - reflexivity.
  - vm_compute. discriminate.
  - split; reflexivity.
Defined.

(** C3.  For a page without links, [transition_model] returns the dict that
    gives [1/N] to every page of the universe, whatever the damping
    factor. *)
Theorem C3_transition_sink (corpus : Corpus) (page : string) (d : Q) :
  is_dict corpus = true ->
  get corpus page = Some [] ->
  exists r,
    transition_model corpus page d = Ok r
    /\ keys r = keys corpus
    /\ (forall p, In p (keys corpus) ->
          get r p = Some (1 / inject_Z (len corpus)))
    /\ (forall d', transition_model corpus page d' = Ok r).
Proof.
  intros Hdict Hget. pose proof (is_dict_keys _ Hdict) as HK.
  exists (tabulate (keys corpus) (fun _ => 1 / inject_Z (len corpus))).
  split; [now apply transition_sink|].
  split; [apply keys_tabulate|].
  split; [intros p Hp; now rewrite get_tabulate|].
  intros d'. now apply transition_sink.
Qed.

Lemma C3_transition_sink_witness :
  is_dict corpus_ab = true
  /\ get corpus_ab "b" = Some []
  /\ exists r,
       transition_model corpus_ab "b" (1 # 2) = Ok r
       /\ keys r = keys corpus_ab
       /\ (forall p, In p (keys corpus_ab) ->
             get r p = Some (1 / inject_Z (len corpus_ab)))
       /\ (forall d', transition_model corpus_ab "b" d' = Ok r).
Proof.
  split; [reflexivity|]. split; [reflexivity|].
  apply (C3_transition_sink corpus_ab "b" (1 # 2)); reflexivity.
Defined.

(** C4.  The claim holds [iterate_pagerank] to ranks that add up to 1
    within 1e-6, and so does the docstring of the function (the values
    should sum to 1).  The code misses that.  On the graph [a -> b], [b] a
    sink, with damping 1/2, the loop is still running after five passes and
    returns after the sixth; the ranks it returns are 104809/262144 for [a]
    and 314427/524288 for [b], which add up to 524045/524288, further from 1
    than 1e-6. *)
Lemma C4_sum_at_failing_input :
  iterate_pagerank 5 corpus_ab (1 # 2) = None
  /\ exists r,
       iterate_pagerank 6 corpus_ab (1 # 2) = Some (Ok r)
       /\ map (fun kv => (fst kv, Qred (snd kv))) r
          = [("a"%string, 104809 # 262144); ("b"%string, 314427 # 524288)]
       /\ total r == 524045 # 524288
       /\ ~ Qabs (total r - 1) <= 1 # 1000000.
Proof.
  split; [vm_compute; reflexivity|].
  eexists. split; [vm_compute; reflexivity|].
  split; [vm_compute; reflexivity|].
  split; [reflexivity|]. vm_compute. intros H. apply H. reflexivity.
Qed.

(** C5, as stated, fails: with the sample count -1 the call returns a dict
    (every page at 0) instead of failing. *)
Lemma C5_counterexample :
  sample_pagerank corpus_ab (1 # 2) (-1) (fun _ => 0)
  = Ok [("a"%string, 0); ("b"%string, 0)].
Proof. vm_compute. reflexivity. Qed.

(** C5, as the code has it.  [sample_pagerank] does not check the sample
    count.  With [n <= 0] the sampling loop runs no round, so the outcome
    depends neither on the random source nor on the damping factor; with
    [n = 0] the final division raises [ZeroDivisionError] on a non-empty
    graph and the call returns the empty dict on the empty graph; with
    [n < 0] the call returns the dict that gives [0/n], that is 0, to every
    page. *)
Theorem C5_no_sample_count_check (corpus : Corpus) (d : Q) (n : Z)
  (rng : nat -> Q) :
  is_dict corpus = true ->
  (n <= 0)%Z ->
  (forall d' rng', sample_pagerank corpus d' n rng'
                   = sample_pagerank corpus d n rng)
  /\ (n = 0%Z -> corpus <> [] ->
      sample_pagerank corpus d n rng = Raise ZeroDivisionError)
  /\ (n = 0%Z -> corpus = [] -> sample_pagerank corpus d n rng = Ok [])
  /\ ((n < 0)%Z ->
      sample_pagerank corpus d n rng
      = Ok (tabulate (keys corpus) (fun _ => inject_Z 0 / inject_Z n))
      /\ inject_Z 0 / inject_Z n == 0).
Proof.
  intros Hdict Hn. pose proof (is_dict_keys _ Hdict) as HK.
  split; [|split; [|split]].
  - intros d' rng'. now rewrite !sample_pagerank_no_rounds.
  - intros -> Hne. rewrite sample_pagerank_no_rounds by (assumption || lia).
    apply normalise_zero. destruct corpus; [congruence | discriminate].
  - intros -> ->. reflexivity.
  - intros Hneg. split.
    + rewrite sample_pagerank_no_rounds by assumption.
      apply normalise_tabulate; [assumption | lia].
    + unfold Qdiv. change (inject_Z 0) with 0. ring.
Qed.

Lemma C5_no_sample_count_check_witness :
  is_dict corpus_ab = true
  /\ (0 <= 0)%Z
  /\ sample_pagerank corpus_ab (1 # 2) 0 (fun _ => 0) = Raise ZeroDivisionError.
Proof.
  split; [reflexivity|]. split; [lia|].
  apply (C5_no_sample_count_check corpus_ab (1 # 2) 0 (fun _ => 0));
    [reflexivity | lia | reflexivity | discriminate].
Defined.

(** C6, as stated, fails: with the damping factor 2, which is outside
    (0,1), [transition_model], [iterate_pagerank] and [sample_pagerank] all
    return a result. *)
Lemma C6_counterexample :
  transition_model corpus_ab "a" 2
  = Ok [("a"%string, (1 - 2) / 2); ("b"%string, (1 - 2) / 2 + 2 / 1)]
  /\ (exists r, iterate_pagerank 1 corpus_one 2 = Some (Ok r))
  /\ (exists r, sample_pagerank corpus_ab 2 3 (fun _ => 0) = Ok r).
Proof.
  split; [vm_compute; reflexivity|].
  split; eexists; vm_compute; reflexivity.
Qed.

(** C6, as the code has it.  A damping factor outside (0,1) is not
    rejected: no function looks at the value before it computes with it.
    On a well-formed graph and for every damping factor [d] with
    [-1 <= d <= 0] or [1 <= d <= 2], [transition_model] returns a dict over
    the universe for every page of the universe, [iterate_pagerank] raises
    no exception, and [sample_pagerank] with a positive sample count on a
    non-empty graph returns a dict over the universe. *)
Theorem C6_no_damping_check (corpus : Corpus) (d : Q) :
  well_formed corpus = true ->
  -1 <= d <= 0 \/ 1 <= d <= 2 ->
  (forall page, In page (keys corpus) ->
     exists r, transition_model corpus page d = Ok r /\ keys r = keys corpus)
  /\ (forall fuel e, iterate_pagerank fuel corpus d <> Some (Raise e))
  /\ (forall n rng, corpus <> [] -> (0 < n)%Z ->
        exists r, sample_pagerank corpus d n rng = Ok r
                  /\ keys r = keys corpus).
Proof.
  intros Hwf _.
  pose proof (is_dict_keys _ (well_formed_is_dict _ Hwf)) as HK.
  split; [|split].
  - intros page Hpage.
    destruct (transition_total corpus page d Hwf Hpage) as [f [Hf _]].
    eexists. split; [exact Hf | apply keys_tabulate].
  - intros fuel e. now apply iterate_never_raises.
  - intros n rng Hne Hn.
    destruct (sample_pagerank_counts corpus d n rng Hwf Hne Hn) as [c [Hc _]].
    eexists. split; [exact Hc | apply keys_tabulate].
Qed.

Lemma C6_no_damping_check_witness :
  well_formed corpus_ab = true
  /\ (-1 <= 2 <= 0 \/ 1 <= 2 <= 2)
  /\ (forall page, In page (keys corpus_ab) ->
        exists r, transition_model corpus_ab page 2 = Ok r
                  /\ keys r = keys corpus_ab)
  /\ (forall fuel e, iterate_pagerank fuel corpus_ab 2 <> Some (Raise e))
  /\ (forall n rng, corpus_ab <> [] -> (0 < n)%Z ->
        exists r, sample_pagerank corpus_ab 2 n rng = Ok r
                  /\ keys r = keys corpus_ab).
Proof.
  split; [reflexivity|].
  split; [right; split; [discriminate | apply Qle_refl]|].
  apply (C6_no_damping_check corpus_ab 2);
    [reflexivity | right; split; [discriminate | apply Qle_refl]].
Defined.

(** C7.  On the graph with one page and no link, [sample_pagerank] with a
    positive sample count returns the dict that maps the page to [n/n], and
    [iterate_pagerank] returns, after its first pass, the dict that maps the
    page to [(1 - d)/1 + d * (0 + (1/1)/1)]; both values are 1.  This holds
    for every damping factor and every random source. *)
Theorem C7_single_page (p : string) (d : Q) (n : Z) (rng : nat -> Q) :
  (0 < n)%Z ->
  (exists v, sample_pagerank [(p, [])] d n rng = Ok [(p, v)] /\ v == 1)
  /\ (exists v, (forall fuel, (1 <= fuel)%nat ->
                   iterate_pagerank fuel [(p, [])] d = Some (Ok [(p, v)]))
                /\ v == 1).
Proof.
  intros Hn. split.
  - destruct (sample_pagerank_counts [(p, [])] d n rng) as [c [Hc [_ Hsum]]];
      [reflexivity | discriminate | assumption |].
    exists (inject_Z (c p) / inject_Z n). split; [exact Hc|].
    cbn [keys map fst sumZ fold_right] in Hsum.
    replace (c p) with n by lia.
    assert (0 < inject_Z n) by (change 0 with (inject_Z 0); now rewrite <- Zlt_Qlt).
    field. lra.
  - exists (new_rank [(p, [])] d (fun _ => 1 / inject_Z (len [(p, @nil string)])) p).
    assert (Hv : new_rank [(p, [])] d
                   (fun _ => 1 / inject_Z (len [(p, @nil string)])) p == 1).
    { unfold new_rank, sigma_of, sigma_entry, len. simpl. field. }
    split; [|exact Hv].
    intros fuel Hfuel. destruct fuel as [|fuel]; [lia|].
    rewrite iterate_pagerank_tabulate by (repeat constructor; simpl; tauto).
    cbn [gs_loop keys map fst gs_go gs_pass].
    assert (Hgo : Qltb (1 # 1000)
                    (Qabs (new_rank [(p, [])] d
                             (fun _ => 1 / inject_Z (len [(p, @nil string)])) p
                           - 1 / inject_Z (len [(p, @nil string)]))) = false).
    { apply Qltb_false. rewrite Hv.
      setoid_replace (1 - 1 / inject_Z (len [(p, @nil string)])) with 0
        by (unfold len; simpl; field).
      vm_compute. discriminate. }
    rewrite Hgo. cbn [option_map tabulate map]. unfold upd.
    now rewrite String.eqb_refl.
Qed.

Lemma C7_single_page_witness :
  (0 < 4)%Z
  /\ (exists v, sample_pagerank [("home"%string, [])] (17 # 20) 4 (fun _ => 1 # 3)
                = Ok [("home"%string, v)] /\ v == 1)
  /\ (exists v, (forall fuel, (1 <= fuel)%nat ->
                   iterate_pagerank fuel [("home"%string, [])] (17 # 20)
                   = Some (Ok [("home"%string, v)]))
                /\ v == 1).
Proof.
  split; [reflexivity|].
  apply (C7_single_page "home" (17 # 20) 4 (fun _ => 1 # 3)). reflexivity.
Defined.

(** C8.  [iterate_pagerank] takes no random source, and two calls for the
    same graph and the same damping factor that both finish return the same
    value, however much fuel each had; the value does not depend on the
    order in which the link sets are enumerated either. *)
Theorem C8_iterate_deterministic (corpus corpus' : Corpus) (d : Q)
  (fuel1 fuel2 : nat) (r1 r2 : res (dict Q)) :
  is_dict corpus = true ->
  same_graph corpus corpus' ->
  iterate_pagerank fuel1 corpus d = Some r1 ->
  iterate_pagerank fuel2 corpus' d = Some r2 ->
  r1 = r2.
Proof.
  intros Hdict Hsame H1 H2.
  rewrite <- (iterate_pagerank_same corpus corpus' d Hsame fuel2
                (is_dict_keys _ Hdict)) in H2.
  exact (iterate_pagerank_functional corpus d fuel1 fuel2 r1 r2 H1 H2).
Qed.

Lemma C8_iterate_deterministic_witness :
  is_dict corpus_ab = true
  /\ same_graph corpus_ab corpus_ab
  /\ iterate_pagerank 6 corpus_ab (1 # 2) = iterate_pagerank 9 corpus_ab (1 # 2).
Proof.
  split; [reflexivity|]. split; [apply same_graph_refl|].
  destruct (iterate_pagerank 6 corpus_ab (1 # 2)) as [r1|] eqn:E1;
    [|vm_compute in E1; discriminate E1].
  destruct (iterate_pagerank 9 corpus_ab (1 # 2)) as [r2|] eqn:E2;
    [|vm_compute in E2; discriminate E2].
  f_equal.
  apply (C8_iterate_deterministic corpus_ab corpus_ab (1 # 2) 6 9 r1 r2);
    [reflexivity | apply same_graph_refl | exact E1 | exact E2].
Defined.

(** C9.  On a well-formed, non-empty graph and with a positive sample count
    [n], [sample_pagerank] returns a dict over the universe; there are
    counts [c p >= 0], one for every page, that add up to [n], such that the
    value of the page [p] is [c p / n]; the values add up to 1.  This holds
    for every damping factor and every random source. *)
Theorem C9_sample_counts (corpus : Corpus) (d : Q) (n : Z) (rng : nat -> Q) :
  well_formed corpus = true ->
  (1 <= len corpus)%Z ->
  (0 < n)%Z ->
  exists (r : dict Q) (c : string -> Z),
    sample_pagerank corpus d n rng = Ok r
    /\ keys r = keys corpus
    /\ (forall p, In p (keys corpus) ->
          (0 <= c p)%Z /\ get r p = Some (inject_Z (c p) / inject_Z n))
    /\ sumZ (map c (keys corpus)) = n
    /\ total r == 1.
Proof.
  intros Hwf HN Hn.
  assert (Hne : corpus <> []) by (intros ->; unfold len in HN; simpl in HN; lia).
  destruct (sample_pagerank_counts corpus d n rng Hwf Hne Hn)
    as [c [Hc [Hc0 Hsum]]].
  eexists. exists c. split; [exact Hc|].
  split; [apply keys_tabulate|].
  split; [intros p Hp; split; [apply Hc0 | now rewrite get_tabulate]|].
  split; [exact Hsum|].
  unfold total. rewrite values_tabulate, sumQ_counts, Hsum.
  assert (0 < inject_Z n) by (change 0 with (inject_Z 0); now rewrite <- Zlt_Qlt).
  field. lra.
Qed.

Lemma C9_sample_counts_witness :
  well_formed corpus_ring = true
  /\ (1 <= len corpus_ring)%Z
  /\ (0 < 5)%Z
  /\ exists (r : dict Q) (c : string -> Z),
       sample_pagerank corpus_ring (1 # 2) 5 (fun t => Z.of_nat t # 7) = Ok r
       /\ keys r = keys corpus_ring
       /\ (forall p, In p (keys corpus_ring) ->
             (0 <= c p)%Z /\ get r p = Some (inject_Z (c p) / inject_Z 5))
       /\ sumZ (map c (keys corpus_ring)) = 5%Z
       /\ total r == 1.
Proof.
  split; [reflexivity|]. split; [vm_compute; discriminate|].
  split; [reflexivity|].
  apply (C9_sample_counts corpus_ring (1 # 2) 5 (fun t => Z.of_nat t # 7));
    [reflexivity | vm_compute; discriminate | reflexivity].
Defined.

(** C10.  With a damping factor in (0,1), every rank that
    [iterate_pagerank] stores is at least [(1 - d)/N] and is positive: the
    first values are [1/N]; every visit of a page writes
    [(1 - d)/N + d * sigma] with [sigma >= 0]; so the bound holds for every
    page in every configuration that the run reaches, and in the dict that
    is returned. *)
Theorem C10_ranks_bounded_below (corpus : Corpus) (d : Q) :
  is_dict corpus = true ->
  0 < d < 1 ->
  (forall r, iterate_init corpus (len corpus) = Ok r ->
     forall p v, get r p = Some v -> v = 1 / inject_Z (len corpus))
  /\ (forall r page rest go,
        reachable corpus d (Config r (page :: rest) go) ->
        exists sigma go',
          0 <= sigma
          /\ page_step corpus d (len corpus) (r, go) page
             = Ok (setitem r page
                     ((1 - d) / inject_Z (len corpus) + d * sigma), go'))
  /\ (forall c, reachable corpus d c ->
        forall p v, get (cfg_result c) p = Some v ->
          (1 - d) / inject_Z (len corpus) <= v /\ 0 < v)
  /\ (forall fuel r, iterate_pagerank fuel corpus d = Some (Ok r) ->
        forall p v, get r p = Some v ->
          (1 - d) / inject_Z (len corpus) <= v /\ 0 < v).
Proof.
  intros Hdict Hd. pose proof (is_dict_keys _ Hdict) as HK.
  assert (Hd' : 0 <= d <= 1) by lra.
  assert (Hbound : forall c, reachable corpus d c ->
            forall p v, get (cfg_result c) p = Some v ->
              (1 - d) / inject_Z (len corpus) <= v /\ 0 < v).
  { intros c Hc p v Hv.
    pose proof (reachable_bounded corpus d HK Hd' c Hc) as Hb.
    pose proof (bounded_values corpus d c p v Hb Hv) as Hlow.
    split; [exact Hlow|].
    destruct Hb as [x [Hr _]]. rewrite Hr in Hv.
    apply get_tabulate_inv in Hv as [Hin _].
    assert (Hne : corpus <> []) by (intros E; rewrite E in Hin; contradiction).
    pose proof (len_pos corpus Hne) as HN.
    assert (0 < (1 - d) / inject_Z (len corpus)) by (apply Qlt_shift_div_l; lra).
    lra. }
  split; [|split; [|split]].
  - intros r Hr p v Hv. rewrite iterate_init_tabulate in Hr by assumption.
    injection Hr as <-. now apply get_tabulate_inv in Hv as [_ ->].
  - intros r page rest go Hreach.
    destruct (reachable_bounded corpus d HK Hd' _ Hreach) as [x [Hr [Hx Htodo]]].
    cbn [cfg_result cfg_todo] in Hr, Htodo.
    assert (Hpage : In page (keys corpus)) by (apply Htodo; now left).
    exists (sigma_of corpus x page). eexists. split.
    + rewrite sigma_of_row. apply row_nonneg. intros k Hk.
      pose proof (Hx k Hk). pose proof (base_nonneg corpus d Hd'). lra.
    + rewrite Hr, page_step_tabulate by assumption.
      rewrite setitem_tabulate by assumption. reflexivity.
  - exact Hbound.
  - intros fuel r Hrun p v Hv.
    exact (Hbound (Config r [] false)
             (iterate_pagerank_reachable corpus d fuel r Hrun) p v Hv).
Qed.

Lemma C10_ranks_bounded_below_witness :
  is_dict corpus_ab = true
  /\ 0 < 1 # 2 < 1
  /\ forall fuel r, iterate_pagerank fuel corpus_ab (1 # 2) = Some (Ok r) ->
       forall p v, get r p = Some v ->
         (1 - (1 # 2)) / inject_Z (len corpus_ab) <= v /\ 0 < v.
Proof.
  split; [reflexivity|]. split; [split; reflexivity|].
  apply (C10_ranks_bounded_below corpus_ab (1 # 2));
    [reflexivity | split; reflexivity].
Defined.

(** * Beyond the claims *)

(** ** Sets and dicts, once more *)

Lemma to_set_In (l : list string) (x : string) : In x (to_set l) <-> In x l.
Proof.
  induction l as [|y l IH]; simpl; [tauto|].
  destruct (mem y (to_set l)) eqn:E.
  - apply mem_In in E. rewrite IH in *. split; [tauto|].
    intros [<-|H]; tauto.
  - simpl. rewrite IH. tauto.
Qed.

Lemma to_set_NoDup (l : list string) : NoDup (to_set l).
Proof.
  induction l as [|y l IH]; simpl; [constructor|].
  destruct (mem y (to_set l)) eqn:E; [assumption|].
  constructor; [now apply mem_not_In | assumption].
Qed.

Lemma discard_In (x y : string) (s : list string) :
  In y (discard x s) <-> In y s /\ y <> x.
Proof.
  unfold discard. rewrite filter_In, negb_true_iff, String.eqb_neq. tauto.
Qed.

Lemma discard_NoDup (x : string) (s : list string) :
  NoDup s -> NoDup (discard x s).
Proof. apply NoDup_filter. Qed.

Lemma has_key_In {V : Type} (d : dict V) (k : string) :
  has_key d k = true <-> In k (keys d).
Proof.
  unfold has_key. destruct (get d k) as [v|] eqn:E.
  - split; [|reflexivity]. intros _. apply get_In in E.
    unfold keys. change k with (fst (k, v)). now apply in_map.
  - apply get_None in E. split; [discriminate | contradiction].
Qed.

Lemma has_key_mem {V : Type} (d : dict V) (k : string) :
  has_key d k = mem k (keys d).
Proof.
  destruct (mem k (keys d)) eqn:E.
  - apply has_key_In. now apply mem_In.
  - destruct (has_key d k) eqn:E'; [|reflexivity].
    apply has_key_In, mem_In in E'. congruence.
Qed.

Lemma keys_setitem {V : Type} (d : dict V) (k : string) (v : V) :
  keys (setitem d k v) = if mem k (keys d) then keys d else keys d ++ [k].
Proof.
  induction d as [|[k0 v0] d IH]; simpl; [reflexivity|].
  rewrite (String.eqb_sym k k0). destruct (String.eqb k0 k) eqn:E; simpl.
  - reflexivity.
  - rewrite IH. destruct (mem k (keys d)); reflexivity.
Qed.

Lemma setitem_NoDup {V : Type} (d : dict V) (k : string) (v : V) :
  NoDup (keys d) -> NoDup (keys (setitem d k v)).
Proof.
  intros H. rewrite keys_setitem. destruct (mem k (keys d)) eqn:E; [assumption|].
  apply mem_not_In in E. apply NoDup_app; [assumption | repeat constructor; simpl; tauto|].
  intros x Hx [<-|[]]. contradiction.
Qed.

Lemma setitem_In {V : Type} (d : dict V) (k : string) (v : V) (k' : string)
  (v' : V) :
  In (k', v') (setitem d k v) -> (k' = k /\ v' = v) \/ In (k', v') d.
Proof.
  induction d as [|[k0 v0] d IH]; simpl.
  - intros [[= <- <-]|[]]. now left.
  - destruct (String.eqb k0 k) eqn:E; simpl.
    + apply String.eqb_eq in E. subst k0. intros [[= <- <-]|H]; [now left | tauto].
    + intros [H|H]; [tauto|]. destruct (IH H); tauto.
Qed.

(** ** crawl *)

Section Crawl.
Variable extract : string -> list string.
Variable listing : list (string * string).

(** What the first loop keeps: distinct keys, and for every page the links
    that its text gives, itself left out. *)
Lemma crawl_read_inv :
  forall (entries : list (string * string)) (acc : Corpus),
  incl entries listing ->
  NoDup (keys acc) ->
  (forall f ls, In (f, ls) acc ->
     endswith f ".html" = true
     /\ exists c, In (f, c) listing /\ ls = discard f (to_set (extract c))) ->
  NoDup (keys (fold_left (crawl_read extract) entries acc))
  /\ (forall f ls, In (f, ls) (fold_left (crawl_read extract) entries acc) ->
        endswith f ".html" = true
        /\ exists c, In (f, c) listing /\ ls = discard f (to_set (extract c))).
Proof.
  induction entries as [|[f0 c0] entries IH]; intros acc Hincl Hnd Hacc.
  - simpl. now split.
  - cbn [fold_left]. apply IH.
    + intros e He. apply Hincl. now right.
    + unfold crawl_read. cbn [fst snd].
      destruct (endswith f0 ".html"); [now apply setitem_NoDup | assumption].
    + intros f ls Hin. unfold crawl_read in Hin. cbn [fst snd] in Hin.
      destruct (endswith f0 ".html") eqn:E; cbn [negb] in Hin; [|now apply Hacc].
      apply setitem_In in Hin as [[-> ->]|Hin]; [|now apply Hacc].
      split; [assumption|]. exists c0. split; [|reflexivity].
      apply Hincl. now left.
Qed.

(** The second loop, on a dict with the keys [K]. *)
Lemma crawl_prune_loop (K : list string) :
  NoDup K ->
  forall (T : list string) (v : string -> list string),
  NoDup T -> incl T K ->
  for_each T crawl_prune (tabulate K v)
  = Ok (tabulate K (fun f => if mem f T
                             then filter (fun l => mem l K) (v f)
                             else v f)).
Proof.
  intros HK. induction T as [|t T IH]; intros v HT Hincl.
  - reflexivity.
  - assert (Ht : In t K) by (apply Hincl; now left).
    inversion HT; subst. cbn [for_each]. unfold crawl_prune at 1, getitem.
    rewrite (get_tabulate K v t Ht). cbn [bind].
    rewrite (setitem_tabulate K v t _ HK Ht).
    rewrite IH; [| assumption | intros k Hk; apply Hincl; now right].
    f_equal. apply tabulate_ext. intros k Hk. simpl.
    destruct (String.eqb k t) eqn:E.
    + apply String.eqb_eq in E. subst k. apply mem_not_In in H1. rewrite H1.
      apply filter_ext. intros l. rewrite has_key_mem. now rewrite keys_tabulate.
    + reflexivity.
Qed.

(** On a directory that is read without error [crawl] returns, and this is
    what it returns. *)
Lemma crawl_with_shape :
  exists (K : list string) (v : string -> list string),
    crawl_with extract listing
    = Ok (tabulate K (fun f => filter (fun l => mem l K) (v f)))
    /\ K = keys (fold_left (crawl_read extract) listing [])
    /\ NoDup K
    /\ (forall f, In f K ->
          get (fold_left (crawl_read extract) listing []) f = Some (v f)
          /\ endswith f ".html" = true
          /\ exists c, In (f, c) listing
                       /\ v f = discard f (to_set (extract c))).
Proof.
  destruct (crawl_read_inv listing [] (incl_refl _)) as [Hnd Hinv];
    [constructor | intros f ls [] |].
  set (pages := fold_left (crawl_read extract) listing []) in *.
  exists (keys pages).
  exists (fun f => match get pages f with Some ls => ls | None => [] end).
  split; [|split; [reflexivity | split; [assumption|]]].
  - unfold crawl_with. fold pages.
    rewrite <- (tabulate_get pages Hnd []) at 2.
    rewrite (crawl_prune_loop (keys pages) Hnd (keys pages) _ Hnd (incl_refl _)).
    f_equal. apply tabulate_ext. intros k Hk.
    apply mem_In in Hk. now rewrite Hk.
  - intros f Hf. destruct (get_Some_key pages f Hf) as [ls Hls].
    rewrite Hls. split; [reflexivity|].
    apply get_In in Hls. now apply Hinv.
Qed.

End Crawl.

Lemma well_formed_tabulate (K : list string) (g : string -> list string) :
  NoDup K ->
  (forall f, In f K -> NoDup (g f) /\ incl (g f) K) ->
  well_formed (tabulate K g) = true.
Proof.
  intros HK Hg. unfold well_formed, is_dict, closed.
  rewrite keys_tabulate, values_tabulate.
  rewrite !andb_true_iff, !forallb_forall. repeat split.
  - now apply nodupb_NoDup.
  - intros ls Hls. apply in_map_iff in Hls as [f [<- Hf]].
    apply nodupb_NoDup. now apply Hg.
  - intros ls Hls. apply in_map_iff in Hls as [f [<- Hf]].
    apply forallb_forall. intros l Hl. apply mem_In. now apply (Hg f Hf).
Qed.

Section CrawlFacts.
Variable extract : string -> list string.

Lemma crawl_read_keys_mono (entries : list (string * string)) :
  forall (acc : Corpus) (f : string),
  In f (keys acc) -> In f (keys (fold_left (crawl_read extract) entries acc)).
Proof.
  induction entries as [|[f0 c0] entries IH]; intros acc f Hf; [assumption|].
  cbn [fold_left]. apply IH. unfold crawl_read. cbn [fst snd].
  destruct (endswith f0 ".html"); [|assumption]. cbn [negb].
  rewrite keys_setitem. destruct (mem f0 (keys acc)); [assumption|].
  apply in_or_app. now left.
Qed.

Lemma crawl_read_keys_In (entries : list (string * string)) :
  forall (acc : Corpus) (f c : string),
  In (f, c) entries -> endswith f ".html" = true ->
  In f (keys (fold_left (crawl_read extract) entries acc)).
Proof.
  induction entries as [|[f0 c0] entries IH]; intros acc f c Hin Hhtml;
    [contradiction|].
  cbn [fold_left]. destruct Hin as [[= -> ->]|Hin]; [|now apply (IH _ f c)].
  apply crawl_read_keys_mono. unfold crawl_read. cbn [fst snd].
  rewrite Hhtml. cbn [negb]. rewrite keys_setitem.
  destruct (mem f (keys acc)) eqn:E; [now apply mem_In|].
  apply in_or_app. right. now left.
Qed.

Lemma crawl_read_no_html (entries : list (string * string)) :
  existsb (fun e => endswith (fst e) ".html") entries = false ->
  forall acc, fold_left (crawl_read extract) entries acc = acc.
Proof.
  induction entries as [|[f0 c0] entries IH]; intros H acc; [reflexivity|].
  cbn [existsb fst] in H. apply orb_false_iff in H as [H0 H1].
  cbn [fold_left]. unfold crawl_read at 2. cbn [fst snd]. rewrite H0.
  cbn [negb]. now apply IH.
Qed.

Lemma crawl_read_keys (entries : list (string * string)) :
  forall acc : Corpus,
  NoDup (keys acc ++ map fst entries) ->
  keys (fold_left (crawl_read extract) entries acc)
  = keys acc ++ filter (fun f => endswith f ".html") (map fst entries).
Proof.
  induction entries as [|[f0 c0] entries IH]; intros acc Hnd.
  - simpl. now rewrite app_nil_r.
  - cbn [fold_left map fst filter]. cbn [map fst] in Hnd.
    assert (Hf0 : ~ In f0 (keys acc)).
    { apply NoDup_remove_2 in Hnd. intros H. apply Hnd, in_or_app. now left. }
    unfold crawl_read at 2. cbn [fst snd].
    destruct (endswith f0 ".html"); cbn [negb].
    + rewrite IH.
      * rewrite keys_setitem. apply mem_not_In in Hf0. rewrite Hf0.
        now rewrite <- app_assoc.
      * rewrite keys_setitem. apply mem_not_In in Hf0. rewrite Hf0.
        now rewrite <- app_assoc.
    + apply IH. now apply NoDup_remove_1 in Hnd.
Qed.

Lemma crawl_read_get_other (entries : list (string * string)) (f : string) :
  ~ In f (map fst entries) ->
  forall acc, get (fold_left (crawl_read extract) entries acc) f = get acc f.
Proof.
  induction entries as [|[f0 c0] entries IH]; intros Hf acc; [reflexivity|].
  cbn [fold_left]. cbn [map fst] in Hf. rewrite IH by (intros H; apply Hf; now right).
  unfold crawl_read. cbn [fst snd].
  destruct (endswith f0 ".html"); cbn [negb]; [|reflexivity].
  apply get_setitem_other. intros ->. apply Hf. now left.
Qed.

Lemma crawl_read_get (entries : list (string * string)) (f c : string) :
  NoDup (map fst entries) ->
  In (f, c) entries -> endswith f ".html" = true ->
  forall acc,
  get (fold_left (crawl_read extract) entries acc) f
  = Some (discard f (to_set (extract c))).
Proof.
  induction entries as [|[f0 c0] entries IH]; intros Hnd Hin Hhtml acc;
    [contradiction|].
  cbn [map fst] in Hnd. inversion Hnd; subst. cbn [fold_left].
  destruct Hin as [[= -> ->]|Hin]; [|now apply IH].
  rewrite crawl_read_get_other by assumption.
  unfold crawl_read. cbn [fst snd]. rewrite Hhtml. cbn [negb].
  apply get_setitem_same.
Qed.

End CrawlFacts.

(** What [crawl] returns on a directory that is read without error. *)
Lemma crawl_with_well_formed (extract : string -> list string)
  (listing : list (string * string)) (corpus : Corpus) :
  crawl_with extract listing = Ok corpus ->
  well_formed corpus = true
  /\ (forall page links, get corpus page = Some links -> ~ In page links).
Proof.
  destruct (crawl_with_shape extract listing) as [K [v [Hrun [_ [HK Hv]]]]].
  rewrite Hrun. intros [= <-]. split.
  - apply well_formed_tabulate; [assumption|]. intros f Hf.
    destruct (Hv f Hf) as [_ [_ [c [_ Hvf]]]]. split.
    + apply NoDup_filter. rewrite Hvf. apply discard_NoDup, to_set_NoDup.
    + intros l Hl. apply filter_In in Hl as [_ Hl]. now apply mem_In.
  - intros page links Hget Hself.
    apply get_tabulate_inv in Hget as [Hpage ->].
    apply filter_In in Hself as [Hself _].
    destruct (Hv page Hpage) as [_ [_ [c [_ Hvf]]]]. rewrite Hvf in Hself.
    apply discard_In in Hself. tauto.
Qed.

(** *** crawl and the file system *)

Section CrawlDir.
Variable extract : string -> list string.
Variable dir : directory.

(** The first loop, when every file that it opens can be read. *)
Lemma crawl_open_loop (names : list string) :
  (forall g, In g names -> endswith g ".html" = true ->
     exists c, read dir g = Ok c) ->
  forall acc,
  for_each names (crawl_open extract (read dir)) acc
  = Ok (fold_left (crawl_read extract) (entries_of dir names) acc).
Proof.
  induction names as [|g names IH]; intros Hread acc; [reflexivity|].
  cbn [for_each entries_of map fold_left].
  unfold crawl_open at 1. unfold crawl_read at 2. cbn [fst snd].
  destruct (endswith g ".html") eqn:E; cbn [negb bind].
  - destruct (Hread g (or_introl eq_refl) E) as [c Hc].
    unfold text_of. rewrite Hc. cbn [bind].
    apply IH. intros g' Hg'. apply Hread. now right.
  - apply IH. intros g' Hg'. apply Hread. now right.
Qed.

(** The first loop ends without an error only if every file that it opens
    can be read. *)
Lemma crawl_open_loop_ok (names : list string) :
  forall acc pages,
  for_each names (crawl_open extract (read dir)) acc = Ok pages ->
  forall g, In g names -> endswith g ".html" = true ->
    exists c, read dir g = Ok c.
Proof.
  induction names as [|g0 names IH]; intros acc pages Hrun g Hg Hhtml;
    [contradiction|].
  cbn [for_each] in Hrun. unfold crawl_open at 1 in Hrun.
  destruct Hg as [->|Hg].
  - rewrite Hhtml in Hrun. cbn [negb] in Hrun.
    destruct (read dir g) as [c|e]; [now exists c | discriminate].
  - destruct (endswith g0 ".html"); cbn [negb bind] in Hrun.
    + destruct (read dir g0) as [c|e]; [|discriminate]. cbn [bind] in Hrun.
      now apply (IH _ _ Hrun).
    + now apply (IH _ _ Hrun).
Qed.

(** The first loop stops at the first file that cannot be read. *)
Lemma crawl_open_loop_raise (before after : list string) (f : string) (e : exn) :
  endswith f ".html" = true ->
  read dir f = Raise e ->
  (forall g, In g before -> endswith g ".html" = true ->
     exists c, read dir g = Ok c) ->
  forall acc,
  for_each (before ++ f :: after) (crawl_open extract (read dir)) acc = Raise e.
Proof.
  intros Hhtml Hf. induction before as [|g before IH]; intros Hread acc.
  - cbn [app for_each]. unfold crawl_open at 1. rewrite Hhtml, Hf. reflexivity.
  - cbn [app for_each]. unfold crawl_open at 1.
    destruct (endswith g ".html") eqn:E; cbn [negb bind].
    + destruct (Hread g (or_introl eq_refl) E) as [c Hc]. rewrite Hc.
      cbn [bind]. apply IH. intros g' Hg'. apply Hread. now right.
    + apply IH. intros g' Hg'. apply Hread. now right.
Qed.

Lemma crawl_dir_readable (names : list string) :
  listdir dir = Ok names ->
  (forall g, In g names -> endswith g ".html" = true ->
     exists c, read dir g = Ok c) ->
  crawl_dir extract dir = crawl_with extract (entries_of dir names).
Proof.
  intros Hls Hread. unfold crawl_dir, crawl_with. rewrite Hls. cbn [bind].
  now rewrite crawl_open_loop.
Qed.

Lemma crawl_dir_ok (corpus : Corpus) :
  crawl_dir extract dir = Ok corpus ->
  exists names,
    listdir dir = Ok names
    /\ (forall g, In g names -> endswith g ".html" = true ->
          exists c, read dir g = Ok c)
    /\ crawl_with extract (entries_of dir names) = Ok corpus.
Proof.
  intros Hrun. pose proof Hrun as Hrun'. unfold crawl_dir in Hrun'.
  destruct (listdir dir) as [names|e] eqn:Hls; [|discriminate].
  cbn [bind] in Hrun'.
  destruct (for_each names (crawl_open extract (read dir)) [])
    as [pages|e] eqn:Hloop; [|discriminate].
  pose proof (crawl_open_loop_ok names [] pages Hloop) as Hread.
  exists names. split; [reflexivity|]. split; [exact Hread|].
  now rewrite <- (crawl_dir_readable names Hls Hread).
Qed.

(** An error of the first loop is the error of a file that it opened. *)
Lemma crawl_open_loop_raise_inv (names : list string) :
  forall acc e,
  for_each names (crawl_open extract (read dir)) acc = Raise e ->
  exists f, In f names /\ endswith f ".html" = true /\ read dir f = Raise e.
Proof.
  induction names as [|g names IH]; intros acc e Hrun; [discriminate|].
  cbn [for_each] in Hrun. unfold crawl_open at 1 in Hrun.
  destruct (endswith g ".html") eqn:E; cbn [negb bind] in Hrun.
  - destruct (read dir g) as [c|e'] eqn:Hg; cbn [bind] in Hrun.
    + destruct (IH _ _ Hrun) as [f [Hf H]]. exists f. split; [now right | exact H].
    + injection Hrun as ->. exists g. split; [now left|]. now split.
  - destruct (IH _ _ Hrun) as [f [Hf H]]. exists f. split; [now right | exact H].
Qed.

Lemma crawl_dir_raise (e : exn) :
  crawl_dir extract dir = Raise e ->
  listdir dir = Raise e
  \/ exists names f,
       listdir dir = Ok names /\ In f names
       /\ endswith f ".html" = true /\ read dir f = Raise e.
Proof.
  intros Hrun. pose proof Hrun as Hrun'. unfold crawl_dir in Hrun'.
  destruct (listdir dir) as [names|e0] eqn:Hls; [|left; now injection Hrun' as ->].
  right. cbn [bind] in Hrun'.
  destruct (for_each names (crawl_open extract (read dir)) [])
    as [pages|e0] eqn:Hloop.
  - pose proof (crawl_open_loop_ok names [] pages Hloop) as Hread.
    rewrite (crawl_dir_readable names Hls Hread) in Hrun.
    destruct (crawl_with_shape extract (entries_of dir names))
      as [K [v [Hshape _]]].
    rewrite Hshape in Hrun. discriminate.
  - cbn [bind] in Hrun'. injection Hrun' as ->.
    destruct (crawl_open_loop_raise_inv names [] e Hloop) as [f H].
    exists names, f. split; [reflexivity | exact H].
Qed.

End CrawlDir.

(** X1.  The graph that [crawl] returns is well formed: no page occurs
    twice, no link set holds a page twice, every link points to a page of
    the graph, and no page links to itself.  This holds whatever the
    regular expression extracts from the files. *)
Theorem crawl_returns_well_formed_graph (extract : string -> list string)
  (dir : directory) (corpus : Corpus) :
  crawl_dir extract dir = Ok corpus ->
  well_formed corpus = true
  /\ (forall page links, get corpus page = Some links -> ~ In page links).
Proof.
  intros Hrun.
  destruct (crawl_dir_ok extract dir corpus Hrun) as [names [_ [_ Hwith]]].
  exact (crawl_with_well_formed extract _ corpus Hwith).
Qed.

Lemma crawl_returns_well_formed_graph_witness :
  crawl (files site)
  = Ok [("1.html"%string, ["2.html"%string]);
        ("2.html"%string, ["1.html"%string])]
  /\ well_formed [("1.html"%string, ["2.html"%string]);
                  ("2.html"%string, ["1.html"%string])] = true
  /\ (forall page links,
        get [("1.html"%string, ["2.html"%string]);
             ("2.html"%string, ["1.html"%string])] page = Some links ->
        ~ In page links).
Proof.
  split; [vm_compute; reflexivity|].
  apply (crawl_returns_well_formed_graph findall_href (files site)).
  vm_compute. reflexivity.
Defined.

(** X17.  [crawl] passes on the first error of the file system and raises
    nothing else.  When [os.listdir] raises, [crawl] raises the same
    exception.  When a file with a name ending in [.html] cannot be opened
    or read (it is a directory, say) and the files with such names listed
    before it can, [crawl] raises the exception of that file.  When every
    file with such a name can be read, [crawl] returns a graph, the one of
    [crawl_with] on the names and texts; the other entries of the directory
    are never opened, so that they need not be readable.  Every exception
    of [crawl] is one of [os.listdir] or of a file with a name ending in
    [.html]. *)
Theorem crawl_raises_first_file_error (extract : string -> list string)
  (dir : directory) :
  (forall e, listdir dir = Raise e -> crawl_dir extract dir = Raise e)
  /\ (forall before f after e,
        listdir dir = Ok (before ++ f :: after) ->
        endswith f ".html" = true ->
        read dir f = Raise e ->
        (forall g, In g before -> endswith g ".html" = true ->
           exists c, read dir g = Ok c) ->
        crawl_dir extract dir = Raise e)
  /\ (forall names,
        listdir dir = Ok names ->
        (forall g, In g names -> endswith g ".html" = true ->
           exists c, read dir g = Ok c) ->
        exists corpus,
          crawl_dir extract dir = Ok corpus
          /\ crawl_with extract (entries_of dir names) = Ok corpus)
  /\ (forall e,
        crawl_dir extract dir = Raise e ->
        listdir dir = Raise e
        \/ exists names f,
             listdir dir = Ok names /\ In f names
             /\ endswith f ".html" = true /\ read dir f = Raise e).
Proof.
  split; [|split; [|split]]; [| | |apply crawl_dir_raise].
  - intros e Hls. unfold crawl_dir. now rewrite Hls.
  - intros before f after e Hls Hhtml Hf Hread. unfold crawl_dir.
    rewrite Hls. cbn [bind].
    now rewrite (crawl_open_loop_raise extract dir before after f e).
  - intros names Hls Hread.
    rewrite (crawl_dir_readable extract dir names Hls Hread).
    destruct (crawl_with_shape extract (entries_of dir names))
      as [K [v [Hrun _]]].
    eexists. split; exact Hrun.
Qed.

Lemma crawl_raises_first_file_error_witness :
  listdir site_with_subdirectory
  = Ok (["1.html"%string; "notes.txt"%string]
        ++ "d.html"%string :: ["2.html"%string])%list
  /\ endswith "d.html" ".html" = true
  /\ read site_with_subdirectory "d.html" = Raise OSError
  /\ crawl site_with_subdirectory = Raise OSError.
Proof.
  split; [reflexivity|]. split; [reflexivity|]. split; [reflexivity|].
  apply (proj1 (proj2 (crawl_raises_first_file_error findall_href
                         site_with_subdirectory))
           ["1.html"; "notes.txt"]%string "d.html"%string ["2.html"%string]
           OSError); try reflexivity.
  intros g [<-|[<-|[]]] Hg; [|discriminate Hg].
  eexists. vm_compute. reflexivity.
Defined.

(** X2.  When the names of the directory are distinct, the pages of the graph
    that [crawl] returns are the names that end in [.html], in the order of
    the listing; no other file becomes a page. *)
Theorem crawl_pages_are_html_files (extract : string -> list string)
  (listing : list (string * string)) :
  nodupb (map fst listing) = true ->
  exists corpus,
    crawl_with extract listing = Ok corpus
    /\ keys corpus
       = filter (fun f => endswith f ".html") (map fst listing).
Proof.
  intros Hnd. apply nodupb_NoDup in Hnd.
  destruct (crawl_with_shape extract listing) as [K [v [Hrun [HKeq _]]]].
  eexists. split; [exact Hrun|]. rewrite keys_tabulate, HKeq.
  now rewrite crawl_read_keys.
Qed.

Lemma crawl_pages_are_html_files_witness :
  nodupb (map fst site) = true
  /\ exists corpus,
       crawl_with findall_href site = Ok corpus
       /\ keys corpus = filter (fun f => endswith f ".html") (map fst site).
Proof.
  split; [reflexivity|].
  apply (crawl_pages_are_html_files findall_href site). reflexivity.
Defined.

(** X3.  When the names of the directory are distinct, the link set that
    [crawl] returns for a file [f] with the text [c] holds exactly the
    strings that the regular expression extracts from [c], other than [f]
    itself, that are names of the directory ending in [.html]; each of them
    once. *)
Theorem crawl_links_of_page (extract : string -> list string)
  (listing : list (string * string)) (f c : string) :
  nodupb (map fst listing) = true ->
  In (f, c) listing ->
  endswith f ".html" = true ->
  exists corpus links,
    crawl_with extract listing = Ok corpus
    /\ get corpus f = Some links
    /\ NoDup links
    /\ forall l, In l links
                 <-> In l (extract c) /\ l <> f
                     /\ endswith l ".html" = true /\ In l (map fst listing).
Proof.
  intros Hnd Hin Hhtml. apply nodupb_NoDup in Hnd.
  destruct (crawl_with_shape extract listing) as [K [v [Hrun [HKeq [HK Hv]]]]].
  assert (HKf : K = filter (fun f => endswith f ".html") (map fst listing)).
  { rewrite HKeq. now rewrite crawl_read_keys. }
  assert (Hf : In f K).
  { rewrite HKf. apply filter_In. split; [|assumption].
    change f with (fst (f, c)). now apply in_map. }
  destruct (Hv f Hf) as [Hget _].
  rewrite (crawl_read_get extract listing f c Hnd Hin Hhtml []) in Hget.
  injection Hget as Hvf.
  eexists. eexists. split; [exact Hrun|].
  split; [now apply get_tabulate|]. split.
  - apply NoDup_filter. rewrite <- Hvf. apply discard_NoDup, to_set_NoDup.
  - intros l. rewrite filter_In, <- Hvf, discard_In, to_set_In, mem_In.
    rewrite HKf, filter_In. tauto.
Qed.

Lemma crawl_links_of_page_witness :
  nodupb (map fst site) = true
  /\ In ("2.html"%string, snd (nth 2 site (EmptyString, EmptyString))) site
  /\ endswith "2.html" ".html" = true
  /\ exists corpus links,
       crawl_with findall_href site = Ok corpus
       /\ get corpus "2.html" = Some links
       /\ NoDup links
       /\ forall l, In l links
                    <-> In l (findall_href
                                (snd (nth 2 site (EmptyString, EmptyString))))
                        /\ l <> "2.html"%string
                        /\ endswith l ".html" = true /\ In l (map fst site).
Proof.
  split; [reflexivity|]. split; [simpl; tauto|]. split; [reflexivity|].
  apply (crawl_links_of_page findall_href site "2.html"
           (snd (nth 2 site (EmptyString, EmptyString))));
    [reflexivity | simpl; tauto | reflexivity].
Defined.

(** X4.  The pipeline of [main] on a directory with at least one file
    whose name ends in [.html]: the graph that [crawl] returns is one that
    both estimators take.  On it [sample_pagerank], with a positive sample
    count and a damping factor in [0,1), returns a dict over the pages
    whose values add up to 1; [iterate_pagerank] raises no exception, and
    what it returns is a dict over the pages. *)
Theorem crawl_then_rank (extract : string -> list string) (dir : directory)
  (names : list string) (corpus : Corpus) (d : Q) (n : Z) (rng : nat -> Q) :
  listdir dir = Ok names ->
  existsb (fun f => endswith f ".html") names = true ->
  crawl_dir extract dir = Ok corpus ->
  (0 < n)%Z ->
  0 <= d < 1 ->
  (exists sampled,
     sample_pagerank corpus d n rng = Ok sampled
     /\ keys sampled = keys corpus
     /\ total sampled == 1)
  /\ (forall fuel e, iterate_pagerank fuel corpus d <> Some (Raise e))
  /\ (forall fuel iterated,
        iterate_pagerank fuel corpus d = Some (Ok iterated) ->
        keys iterated = keys corpus).
Proof.
  intros Hls Hhtml Hrun Hn Hd.
  destruct (crawl_dir_ok extract dir corpus Hrun) as [names' [Hls' [_ Hwith]]].
  rewrite Hls in Hls'. injection Hls' as <-.
  destruct (crawl_with_well_formed extract _ corpus Hwith) as [Hwf _].
  pose proof (is_dict_keys _ (well_formed_is_dict _ Hwf)) as HK.
  assert (Hne : corpus <> []).
  { destruct (crawl_with_shape extract (entries_of dir names))
      as [K [v [Hshape [HKeq _]]]].
    rewrite Hshape in Hwith. injection Hwith as <-.
    apply existsb_exists in Hhtml as [f [Hin Hf]].
    assert (Hentry : In (f, text_of dir f) (entries_of dir names)).
    { unfold entries_of. apply in_map_iff. now exists f. }
    pose proof (crawl_read_keys_In extract _ [] f _ Hentry Hf) as HfK.
    rewrite <- HKeq in HfK. intros E.
    assert (HK0 : keys (tabulate K (fun f0 => filter (fun l => mem l K) (v f0)))
                  = []) by (now rewrite E).
    rewrite keys_tabulate in HK0. rewrite HK0 in HfK. contradiction. }
  split; [|split].
  - destruct (sample_pagerank_counts corpus d n rng Hwf Hne Hn)
      as [cnt [Hs [_ Hsum]]].
    eexists. split; [exact Hs|]. split; [apply keys_tabulate|].
    unfold total. rewrite values_tabulate, sumQ_counts, Hsum.
    assert (0 < inject_Z n) by (change 0 with (inject_Z 0); now rewrite <- Zlt_Qlt).
    field. lra.
  - intros fuel e. now apply iterate_never_raises.
  - intros fuel iterated Hit.
    rewrite iterate_pagerank_tabulate in Hit by assumption.
    destruct (gs_loop fuel corpus d _); [|discriminate].
    injection Hit as <-. apply keys_tabulate.
Qed.

Lemma crawl_then_rank_witness :
  listdir (files site) = Ok ["1.html"; "notes.txt"; "2.html"]%string
  /\ existsb (fun f => endswith f ".html")
       ["1.html"; "notes.txt"; "2.html"]%string = true
  /\ crawl (files site)
     = Ok [("1.html"%string, ["2.html"%string]);
           ("2.html"%string, ["1.html"%string])]
  /\ (0 < SAMPLES)%Z
  /\ 0 <= DAMPING < 1
  /\ (exists sampled,
        sample_pagerank [("1.html"%string, ["2.html"%string]);
                         ("2.html"%string, ["1.html"%string])]
          DAMPING SAMPLES (fun _ => 1 # 3) = Ok sampled
        /\ keys sampled = ["1.html"; "2.html"]%string
        /\ total sampled == 1)
  /\ (forall fuel e,
        iterate_pagerank fuel [("1.html"%string, ["2.html"%string]);
                               ("2.html"%string, ["1.html"%string])] DAMPING
        <> Some (Raise e))
  /\ (forall fuel iterated,
        iterate_pagerank fuel [("1.html"%string, ["2.html"%string]);
                               ("2.html"%string, ["1.html"%string])] DAMPING
        = Some (Ok iterated) ->
        keys iterated = ["1.html"; "2.html"]%string).
Proof.
  split; [reflexivity|]. split; [reflexivity|].
  split; [vm_compute; reflexivity|]. split; [reflexivity|].
  split; [split; [discriminate | reflexivity]|].
  apply (crawl_then_rank findall_href (files site)
           ["1.html"; "notes.txt"; "2.html"]%string
           [("1.html"%string, ["2.html"%string]);
            ("2.html"%string, ["1.html"%string])]
           DAMPING SAMPLES (fun _ => 1 # 3));
    [reflexivity | reflexivity | vm_compute; reflexivity | reflexivity
    | split; [discriminate | reflexivity]].
Defined.

Lemma sample_pagerank_empty (d : Q) (n : Z) (rng : nat -> Q) :
  (0 < n)%Z -> sample_pagerank [] d n rng = Raise IndexError.
Proof.
  intros Hn. unfold sample_pagerank.
  destruct (Z.to_nat n) as [|m] eqn:E; [lia|]. reflexivity.
Qed.

(** X5.  On a directory without any file whose name ends in [.html], [crawl]
    returns the empty graph; on it [sample_pagerank] with a positive sample
    count raises [IndexError] (the first draw has nothing to choose from),
    and [iterate_pagerank] returns the empty dict. *)
Theorem crawl_without_pages (extract : string -> list string)
  (listing : list (string * string)) (d : Q) (n : Z) (rng : nat -> Q) :
  existsb (fun e => endswith (fst e) ".html") listing = false ->
  (0 < n)%Z ->
  crawl_with extract listing = Ok []
  /\ sample_pagerank [] d n rng = Raise IndexError
  /\ iterate_pagerank 1 [] d = Some (Ok []).
Proof.
  intros Hhtml Hn. split; [|split].
  - unfold crawl_with. now rewrite crawl_read_no_html.
  - now apply sample_pagerank_empty.
  - reflexivity.
Qed.

Lemma crawl_without_pages_witness :
  existsb (fun e => endswith (fst e) ".html")
    [("notes.txt"%string, anchor "1.html")] = false
  /\ (0 < SAMPLES)%Z
  /\ crawl_with findall_href [("notes.txt"%string, anchor "1.html")] = Ok []
  /\ sample_pagerank [] DAMPING SAMPLES (fun _ => 0) = Raise IndexError
  /\ iterate_pagerank 1 [] DAMPING = Some (Ok []).
Proof.
  split; [reflexivity|]. split; [reflexivity|].
  apply (crawl_without_pages findall_href [("notes.txt"%string, anchor "1.html")]
           DAMPING SAMPLES (fun _ => 0)); reflexivity.
Defined.

(** ** The regular expression *)

Lemma has_char_append (c : ascii) (a b : string) :
  has_char c (String.append a b) = has_char c a || has_char c b.
Proof.
  induction a as [|c' a IH]; simpl; [reflexivity|].
  now rewrite IH, orb_assoc.
Qed.

Lemma ws_unit_shorter (s s1 : string) :
  ws_unit s = Some s1 -> (String.length s1 < String.length s)%nat.
Proof.
  unfold ws_unit. destruct s as [|c1 [|c2 [|c3 s3]]]; try discriminate.
  - destruct (_ || _)%bool; [|discriminate]. intros [= <-]. simpl. lia.
  - destruct (_ || _)%bool; [intros [= <-]; simpl; lia|].
    destruct (_ =? 194)%nat; [|discriminate].
    destruct (_ || _)%bool; [|discriminate]. intros [= <-]. simpl. lia.
  - destruct (_ || _)%bool; [intros [= <-]; simpl; lia|].
    destruct (_ =? 194)%nat.
    + destruct (_ || _)%bool; [|discriminate]. intros [= <-]. simpl. lia.
    + destruct (_ || _)%bool; [|discriminate]. intros [= <-]. simpl. lia.
Qed.

(** What holds of every result of the continuation holds of every result of
    the repetition before it. *)
Section Continuations.
Variable P : string -> matched -> Prop.
Hypothesis Pmono :
  forall c s r, P s r -> P (String c s) r.

Lemma lazy_not_keeps (c : ascii) (k : string -> option matched) :
  (forall s r, k s = Some r -> P s r) ->
  forall s r, lazy_not c k s = Some r -> P s r.
Proof.
  intros Hk. induction s as [|c' s IH]; intros r; simpl.
  - destruct (k EmptyString) eqn:E; [intros [= <-]; now apply Hk | discriminate].
  - destruct (k (String c' s)) eqn:E; [intros [= <-]; now apply Hk|].
    destruct (Ascii.eqb c' c); [discriminate|].
    intros H. apply Pmono. now apply IH.
Qed.

Lemma greedy_not_keeps (c : ascii) (k : string -> string -> option matched)
  (Good : string -> Prop) :
  (forall acc c', Good acc -> Ascii.eqb c' c = false ->
                  Good (String.append acc (String c' EmptyString))) ->
  (forall acc s r, Good acc -> k acc s = Some r -> P s r) ->
  forall s acc r, Good acc -> greedy_not c k acc s = Some r -> P s r.
Proof.
  intros Hgood Hk. induction s as [|c' s IH]; intros acc r Hacc; simpl.
  - now apply Hk.
  - destruct (Ascii.eqb c' c) eqn:E; [now apply Hk|].
    destruct (greedy_not c k (String.append acc (String c' EmptyString)) s)
      eqn:E'.
    + intros [= <-]. apply Pmono. apply (IH _ _ (Hgood _ _ Hacc E) E').
    + now apply Hk.
Qed.

Hypothesis Pws :
  forall s s1 r, ws_unit s = Some s1 -> P s1 r -> P s r.

Lemma greedy_space_keeps (k : string -> option matched) :
  (forall s r, k s = Some r -> P s r) ->
  forall fuel s r, greedy_space fuel k s = Some r -> P s r.
Proof.
  intros Hk. induction fuel as [|fuel IH]; intros s r; simpl; [apply Hk|].
  destruct (ws_unit s) as [s1|] eqn:E; [|apply Hk].
  destruct (greedy_space fuel k s1) eqn:E'; [|apply Hk].
  intros [= <-]. apply (Pws s s1); [assumption|]. now apply IH.
Qed.

End Continuations.

Lemma run_shrinks (p : list atom) :
  forall cap s r,
  run p cap s = Some r -> (String.length (snd r) <= String.length s)%nat.
Proof.
  induction p as [|a p IH]; intros cap s r.
  - intros [= <-]. simpl. lia.
  - destruct a as [c| |c|c]; cbn [run].
    + destruct s as [|c' s]; [discriminate|].
      destruct (Ascii.eqb c' c); [|discriminate].
      intros H. apply IH in H. simpl. lia.
    + destruct (ws_unit s) as [s1|] eqn:E; [|discriminate]. intros H.
      apply ws_unit_shorter in E.
      apply (greedy_space_keeps
               (fun s r => (String.length (snd r) <= String.length s)%nat))
        in H.
      * lia.
      * intros s0 s2 r0 H0 H1. apply ws_unit_shorter in H0. lia.
      * intros s0 r0. apply IH.
    + apply (lazy_not_keeps
               (fun s r => (String.length (snd r) <= String.length s)%nat)).
      * intros c0 s0 r0 H0. simpl in *. lia.
      * intros s0 r0. apply IH.
    + apply (greedy_not_keeps
               (fun s r => (String.length (snd r) <= String.length s)%nat)
               ltac:(intros c0 s0 r0 H0; simpl in *; lia) c (run p)
               (fun _ => True)); [tauto | | exact I].
      intros acc s0 r0 _. apply IH.
Qed.

Lemma run_lit (c : ascii) (p : list atom) (cap : string) (c' : ascii)
  (s : string) :
  run (Lit c :: p) cap (String c' s)
  = if Ascii.eqb c' c then run p cap s else None.
Proof. reflexivity. Qed.

Lemma run_href_shrinks (cap s : string) (r : matched) :
  run href_pattern cap s = Some r ->
  (String.length (snd r) < String.length s)%nat.
Proof.
  unfold href_pattern. destruct s as [|c' s]; [discriminate|].
  rewrite run_lit. destruct (Ascii.eqb c' "<"); [|discriminate].
  intros H. apply run_shrinks in H. simpl. lia.
Qed.

Lemma run_group_clean (p : list atom) :
  (forall c, In (GroupNot c) p -> c = dquote) ->
  forall cap s r,
  has_char dquote cap = false ->
  run p cap s = Some r -> has_char dquote (fst r) = false.
Proof.
  induction p as [|a p IH]; intros Hp cap s r Hcap.
  - now intros [= <-].
  - assert (Hp' : forall c, In (GroupNot c) p -> c = dquote)
      by (intros c Hc; apply Hp; now right).
    destruct a as [c| |c|c]; cbn [run].
    + destruct s as [|c' s]; [discriminate|].
      destruct (Ascii.eqb c' c); [|discriminate]. now apply IH.
    + destruct (ws_unit s) as [s1|]; [|discriminate].
      apply (greedy_space_keeps (fun _ r => has_char dquote (fst r) = false));
        [tauto|]. intros s0 r0. now apply IH.
    + apply (lazy_not_keeps (fun _ r => has_char dquote (fst r) = false));
        [tauto|]. intros s0 r0. now apply IH.
    + assert (c = dquote) by (apply Hp; now left). subst c.
      apply (greedy_not_keeps (fun _ r => has_char dquote (fst r) = false)
               ltac:(tauto) dquote (run p)
               (fun acc => has_char dquote acc = false)).
      * intros acc c' Hacc Hc'. rewrite has_char_append, Hacc. simpl.
        now rewrite Hc'.
      * intros acc s0 r0 Hacc. now apply IH.
      * reflexivity.
Qed.

Lemma findall_from_clean (fuel : nat) :
  forall s l, In l (findall_from fuel s) -> has_char dquote l = false.
Proof.
  induction fuel as [|fuel IH]; intros s l; cbn [findall_from]; [contradiction|].
  destruct (run href_pattern EmptyString s) as [[g rest]|] eqn:E.
  - intros [<-|H]; [|now apply (IH rest)].
    apply (run_group_clean href_pattern) in E; [exact E | | reflexivity].
    intros c Hc. unfold href_pattern in Hc. simpl in Hc.
    repeat (destruct Hc as [Hc|Hc]; [congruence|]). contradiction.
  - destruct s as [|c s]; [contradiction|]. apply IH.
Qed.

Lemma findall_from_fuel :
  forall fuel1 fuel2 s,
  (String.length s < fuel1)%nat -> (String.length s < fuel2)%nat ->
  findall_from fuel1 s = findall_from fuel2 s.
Proof.
  induction fuel1 as [|fuel1 IH]; intros fuel2 s H1 H2; [lia|].
  destruct fuel2 as [|fuel2]; [lia|]. cbn [findall_from].
  destruct (run href_pattern EmptyString s) as [[g rest]|] eqn:E.
  - apply run_href_shrinks in E. cbn [snd] in E. f_equal. apply IH; lia.
  - destruct s as [|c s]; [reflexivity|]. simpl in H1, H2. apply IH; lia.
Qed.

Lemma findall_from_S (fuel : nat) (s : string) :
  findall_from (S fuel) s
  = match run href_pattern EmptyString s with
    | Some (link, rest) => link :: findall_from fuel rest
    | None =>
        match s with
        | String _ s' => findall_from fuel s'
        | EmptyString => []
        end
    end.
Proof. reflexivity. Qed.

Lemma findall_href_step_match (s link rest : string) :
  run href_pattern EmptyString s = Some (link, rest) ->
  findall_href s = link :: findall_href rest.
Proof.
  intros E. unfold findall_href.
  rewrite (findall_from_S (String.length s) s), E. f_equal.
  apply run_href_shrinks in E. cbn [snd] in E. apply findall_from_fuel; lia.
Qed.

Lemma findall_href_step_skip (c : ascii) (s : string) :
  run href_pattern EmptyString (String c s) = None ->
  findall_href (String c s) = findall_href s.
Proof.
  intros E. unfold findall_href.
  rewrite (findall_from_S (String.length (String c s)) (String c s)), E.
  apply findall_from_fuel; simpl; lia.
Qed.

Lemma greedy_not_exact (c : ascii) (k : string -> string -> option matched)
  (target tail : string) (r : matched) :
  has_char c target = false ->
  forall acc,
  k (String.append acc target) (String c tail) = Some r ->
  greedy_not c k acc (String.append target (String c tail)) = Some r.
Proof.
  induction target as [|c' target IH]; intros Hclean acc Hk.
  - simpl. rewrite Ascii.eqb_refl.
    replace (String.append acc EmptyString) with acc in Hk; [assumption|].
    clear. induction acc as [|a acc IH]; simpl; [reflexivity | now rewrite <- IH].
  - simpl in Hclean. apply orb_false_iff in Hclean as [Hc' Hclean].
    cbn [String.append greedy_not]. rewrite Hc'. rewrite IH; [reflexivity | assumption |].
    replace (String.append (String.append acc (String c' EmptyString)) target)
      with (String.append acc (String c' target)); [assumption|].
    clear. induction acc as [|a acc IH]; simpl; [reflexivity | now rewrite IH].
Qed.

(** X6.  No link that the regular expression of [crawl] extracts holds a
    double quote. *)
Theorem links_hold_no_quote (contents link : string) :
  In link (findall_href contents) -> has_char dquote link = false.
Proof. apply findall_from_clean. Qed.

Lemma links_hold_no_quote_witness :
  In "2.html"%string (findall_href (anchor "2.html"))
  /\ has_char dquote "2.html" = false.
Proof.
  split; [vm_compute; tauto|].
  apply (links_hold_no_quote (anchor "2.html") "2.html"). vm_compute. tauto.
Defined.

(** X7.  A text without the character [<] gives no link. *)
Theorem text_without_tag_has_no_link (contents : string) :
  has_char "<" contents = false -> findall_href contents = [].
Proof.
  induction contents as [|c s IH]; intros H; [reflexivity|].
  simpl in H. apply orb_false_iff in H as [Hc Hs].
  rewrite findall_href_step_skip; [now apply IH|].
  unfold href_pattern. cbn [run]. now rewrite Hc.
Qed.

Lemma text_without_tag_has_no_link_witness :
  has_char "<" "href=2.html" = false /\ findall_href "href=2.html" = [].
Proof.
  split; [reflexivity|].
  apply (text_without_tag_has_no_link "href=2.html"). reflexivity.
Defined.

Lemma run_space (p : list atom) (cap s : string) :
  run (SpacePlus :: p) cap s
  = match ws_unit s with
    | Some s1 => greedy_space (String.length s1) (run p cap) s1
    | None => None
    end.
Proof. reflexivity. Qed.

Lemma run_lazy (c : ascii) (p : list atom) (cap s : string) :
  run (LazyNot c :: p) cap s = lazy_not c (run p cap) s.
Proof. reflexivity. Qed.

Lemma run_group (c : ascii) (p : list atom) (cap s : string) :
  run (GroupNot c :: p) cap s = greedy_not c (run p) EmptyString s.
Proof. reflexivity. Qed.

Lemma lazy_not_now (c : ascii) (k : string -> option matched) (s : string)
  (r : matched) :
  k s = Some r -> lazy_not c k s = Some r.
Proof. intros H. destruct s; simpl; now rewrite H. Qed.

Lemma greedy_space_none (fuel : nat) (k : string -> option matched)
  (s : string) :
  ws_unit s = None -> greedy_space fuel k s = k s.
Proof. intros H. destruct fuel; simpl; [reflexivity | now rewrite H]. Qed.

Lemma append_assoc (a b c : string) :
  String.append (String.append a b) c = String.append a (String.append b c).
Proof. induction a as [|x a IH]; simpl; [reflexivity | now rewrite IH]. Qed.

Lemma anchor_chars (target rest : string) :
  String.append (anchor target) rest
  = String "<" (String "a" (String " " (String "h" (String "r" (String "e"
      (String "f" (String "=" (String dquote
         (String.append target (String dquote (String ">" rest))))))))))).
Proof.
  unfold anchor. cbn [String.append]. rewrite append_assoc. reflexivity.
Qed.

Lemma run_anchor (target rest : string) :
  has_char dquote target = false ->
  run href_pattern EmptyString (String.append (anchor target) rest)
  = Some (target, String ">" rest).
Proof.
  intros Hclean. rewrite anchor_chars. unfold href_pattern.
  rewrite !run_lit. cbn [Ascii.eqb Bool.eqb]. cbv iota.
  rewrite run_space.
  assert (Hsp : forall s, ws_unit (String " " s) = Some s) by reflexivity.
  rewrite Hsp. rewrite greedy_space_none by reflexivity.
  rewrite run_lazy. apply lazy_not_now.
  rewrite !run_lit. cbn [Ascii.eqb Bool.eqb]. cbv iota.
  rewrite Ascii.eqb_refl. rewrite run_group.
  apply greedy_not_exact; [assumption|].
  cbn [String.append]. rewrite run_lit, Ascii.eqb_refl. reflexivity.
Qed.

(** X8.  A tag [<a href=Q target Q>] (with [Q] the double quote and no double
    quote inside [target]) at the head of a text gives the link [target],
    followed by the links of the rest of the text. *)
Theorem anchor_gives_its_target (target rest : string) :
  has_char dquote target = false ->
  findall_href (String.append (anchor target) rest)
  = target :: findall_href rest.
Proof.
  intros Hclean.
  rewrite (findall_href_step_match _ _ _ (run_anchor target rest Hclean)).
  now rewrite (findall_href_step_skip ">" rest eq_refl).
Qed.

Lemma anchor_gives_its_target_witness :
  has_char dquote "2.html" = false
  /\ findall_href (String.append (anchor "2.html") (anchor "3.html"))
     = ["2.html"%string; "3.html"%string].
Proof.
  split; [reflexivity|].
  rewrite (anchor_gives_its_target "2.html" (anchor "3.html")); reflexivity.
Defined.

(** ** The estimators at their edges *)

Lemma add_links_dangling (prob : Q) :
  forall (L : list string) (r : dict Q),
  (exists l, In l L /\ ~ In l (keys r)) ->
  for_each L (fun result p => v <- getitem result p ;;
                              Ok (setitem result p (v + prob))) r
  = Raise KeyError.
Proof.
  induction L as [|p L IH]; intros r [l [Hl Hout]]; [contradiction|].
  cbn [for_each]. unfold getitem at 1.
  destruct (get r p) as [v|] eqn:E; [|reflexivity]. cbn [bind].
  apply IH. exists l. split.
  - destruct Hl as [->|Hl]; [|assumption]. exfalso. apply Hout.
    apply get_In in E. unfold keys. change l with (fst (l, v)). now apply in_map.
  - rewrite keys_setitem.
    assert (Hp : mem p (keys r) = true).
    { apply mem_In. apply get_In in E. unfold keys.
      change p with (fst (p, v)). now apply in_map. }
    now rewrite Hp.
Qed.

(** X9.  When the link set of a page holds a page that is not a key of the
    graph, [transition_model] for that page raises [KeyError]. *)
Theorem transition_model_dangling_link_raises (corpus : Corpus)
  (page : string) (links : list string) (d : Q) :
  is_dict corpus = true ->
  get corpus page = Some links ->
  existsb (fun l => negb (mem l (keys corpus))) links = true ->
  transition_model corpus page d = Raise KeyError.
Proof.
  intros Hdict Hget Hdangling. pose proof (is_dict_keys _ Hdict) as HK.
  apply existsb_exists in Hdangling as [l [Hl Hout]].
  apply negb_true_iff, mem_not_In in Hout.
  assert (Hne : links <> []) by (intros ->; contradiction).
  unfold transition_model, getitem. rewrite Hget. cbn [bind].
  rewrite (len_nonzero links Hne).
  rewrite (for_each_build _ (fun _ => (1 - d) / inject_Z (len corpus))
             (keys corpus) [] HK).
  - cbn [bind app]. unfold truediv at 1. rewrite (len_nonzero links Hne).
    cbn [bind]. apply add_links_dangling. exists l.
    split; [assumption | now rewrite keys_tabulate].
  - intros out p _. unfold truediv.
    now rewrite (len_nonzero corpus (get_nonempty _ _ _ Hget)).
Qed.

Lemma transition_model_dangling_link_raises_witness :
  is_dict [("a"%string, ["b"; "z"]%string); ("b"%string, [])] = true
  /\ get [("a"%string, ["b"; "z"]%string); ("b"%string, [])] "a"
     = Some ["b"; "z"]%string
  /\ transition_model [("a"%string, ["b"; "z"]%string); ("b"%string, [])]
       "a" (1 # 2) = Raise KeyError.
Proof.
  split; [reflexivity|]. split; [reflexivity|].
  apply (transition_model_dangling_link_raises
           [("a"%string, ["b"; "z"]%string); ("b"%string, [])] "a"
           ["b"; "z"]%string (1 # 2)); reflexivity.
Defined.

(** X10.  [iterate_pagerank] needs neither a closed nor a non-empty graph.
    On every dict, also one whose links point outside the graph, and with
    every damping factor from 0 to 0.99, it terminates: with enough fuel it
    returns a dict [r] with the keys of the graph.  [r] is the result of a
    pass, from a dict [prev], that left the flag [go] false, and in that
    pass no rank moved by more than 0.001. *)
Theorem iterate_pagerank_accepts_any_dict (corpus : Corpus) (d : Q) :
  is_dict corpus = true ->
  0 <= d <= 99 # 100 ->
  exists fuel r prev,
    iterate_pagerank fuel corpus d = Some (Ok r)
    /\ keys r = keys corpus
    /\ keys prev = keys corpus
    /\ one_pass corpus d (len corpus) prev = Ok (r, false)
    /\ (forall p, In p (keys corpus) ->
          Qabs (rank_of r p - rank_of prev p) <= 1 # 1000).
Proof.
  intros Hdict Hd. pose proof (is_dict_keys _ Hdict) as HK.
  assert (Hd1 : 0 <= d < 1) by (split; [tauto | apply Qle_lt_trans with (99 # 100); [tauto | reflexivity]]).
  destruct (iterate_pagerank_terminates corpus d HK Hd1)
    as [fuel [x' [Hrun Hloop]]].
  destruct (gs_loop_last corpus d fuel _ x' Hloop) as [y [Hx' Hgo]].
  pose proof (proj1 (gs_go_false corpus d (keys corpus) HK y false) Hgo)
    as [_ Hsmall].
  exists fuel, (tabulate (keys corpus) x'), (tabulate (keys corpus) y).
  split; [exact Hrun|]. split; [apply keys_tabulate|].
  split; [apply keys_tabulate|].
  split; [rewrite one_pass_tabulate by assumption; now rewrite Hgo, Hx'|].
  intros p Hp. rewrite !rank_of_tabulate by assumption. rewrite Hx'.
  now apply Hsmall.
Qed.

Lemma iterate_pagerank_accepts_any_dict_witness :
  is_dict [("a"%string, ["b"; "z"]%string); ("b"%string, [])] = true
  /\ 0 <= 1 # 2 <= 99 # 100
  /\ exists fuel r prev,
       iterate_pagerank fuel
         [("a"%string, ["b"; "z"]%string); ("b"%string, [])] (1 # 2)
       = Some (Ok r)
       /\ keys r = ["a"; "b"]%string
       /\ keys prev = ["a"; "b"]%string
       /\ one_pass [("a"%string, ["b"; "z"]%string); ("b"%string, [])]
            (1 # 2) 2 prev = Ok (r, false)
       /\ (forall p, In p ["a"; "b"]%string ->
             Qabs (rank_of r p - rank_of prev p) <= 1 # 1000).
Proof.
  split; [reflexivity|]. split; [split; discriminate|].
  apply (iterate_pagerank_accepts_any_dict
           [("a"%string, ["b"; "z"]%string); ("b"%string, [])] (1 # 2));
    [reflexivity | split; discriminate].
Defined.

(** X18.  [iterate_pagerank] raises nothing, on any dict and with any
    damping factor from 0 to 1: links that point outside the graph, on
    which [transition_model] raises [KeyError], are passed over, and no
    division is by zero.  Every pass over a dict with the keys of the graph
    ends and gives a dict with the same keys, and so does the function when
    it returns. *)
Theorem iterate_pagerank_raises_nothing (corpus : Corpus) (d : Q) :
  is_dict corpus = true ->
  0 <= d <= 1 ->
  (forall result,
     keys result = keys corpus ->
     exists result' go,
       one_pass corpus d (len corpus) result = Ok (result', go)
       /\ keys result' = keys corpus)
  /\ (forall fuel e, iterate_pagerank fuel corpus d <> Some (Raise e))
  /\ (forall fuel r,
        iterate_pagerank fuel corpus d = Some (Ok r) -> keys r = keys corpus).
Proof.
  intros Hdict _. pose proof (is_dict_keys _ Hdict) as HK.
  split; [|split].
  - intros result Hkeys.
    assert (Hres : result = tabulate (keys corpus) (rank_of result)).
    { rewrite <- Hkeys. apply tabulate_rank_of. now rewrite Hkeys. }
    rewrite Hres, one_pass_tabulate by assumption.
    eexists. eexists. split; [reflexivity | apply keys_tabulate].
  - intros fuel e. now apply iterate_never_raises.
  - intros fuel r Hit.
    rewrite iterate_pagerank_tabulate in Hit by assumption.
    destruct (gs_loop fuel corpus d _); [|discriminate].
    injection Hit as <-. apply keys_tabulate.
Qed.

Lemma iterate_pagerank_raises_nothing_witness :
  is_dict [("a"%string, ["b"; "z"]%string); ("b"%string, [])] = true
  /\ 0 <= 1 # 2 <= 1
  /\ transition_model [("a"%string, ["b"; "z"]%string); ("b"%string, [])]
       "a" (1 # 2) = Raise KeyError
  /\ (forall result,
        keys result = ["a"; "b"]%string ->
        exists result' go,
          one_pass [("a"%string, ["b"; "z"]%string); ("b"%string, [])]
            (1 # 2) 2 result = Ok (result', go)
          /\ keys result' = ["a"; "b"]%string)
  /\ (forall fuel e,
        iterate_pagerank fuel
          [("a"%string, ["b"; "z"]%string); ("b"%string, [])] (1 # 2)
        <> Some (Raise e))
  /\ (forall fuel r,
        iterate_pagerank fuel
          [("a"%string, ["b"; "z"]%string); ("b"%string, [])] (1 # 2)
        = Some (Ok r) -> keys r = ["a"; "b"]%string).
Proof.
  split; [reflexivity|]. split; [split; discriminate|].
  split; [reflexivity|].
  apply (iterate_pagerank_raises_nothing
           [("a"%string, ["b"; "z"]%string); ("b"%string, [])] (1 # 2));
    [reflexivity | split; discriminate].
Defined.

Lemma sumZ_ge_elem (K : list string) (c : string -> Z) (p : string) :
  (forall k, (0 <= c k)%Z) -> In p K -> (c p <= sumZ (map c K))%Z.
Proof.
  intros Hc. induction K as [|k K IH]; [contradiction|].
  cbn [map sumZ fold_right]. fold (sumZ (map c K)).
  assert (Hsum : (0 <= sumZ (map c K))%Z).
  { clear IH. induction K as [|k' K IH]; simpl; [lia|].
    fold (sumZ (map c K)). pose proof (Hc k'). lia. }
  intros [->|Hp]; [lia|]. specialize (IH Hp). pose proof (Hc k). lia.
Qed.

(** X11.  On a well-formed, non-empty graph and with a positive sample
    count, every value that [sample_pagerank] returns lies between 0 and
    1. *)
Theorem sample_pagerank_values_in_unit_interval (corpus : Corpus) (d : Q)
  (n : Z) (rng : nat -> Q) :
  well_formed corpus = true ->
  (1 <= len corpus)%Z ->
  (0 < n)%Z ->
  exists r,
    sample_pagerank corpus d n rng = Ok r
    /\ forall p v, get r p = Some v -> 0 <= v <= 1.
Proof.
  intros Hwf HN Hn.
  assert (Hne : corpus <> []) by (intros ->; unfold len in HN; simpl in HN; lia).
  destruct (sample_pagerank_counts corpus d n rng Hwf Hne Hn)
    as [c [Hc [Hc0 Hsum]]].
  eexists. split; [exact Hc|]. intros p v Hv.
  apply get_tabulate_inv in Hv as [Hp ->].
  pose proof (sumZ_ge_elem (keys corpus) c p Hc0 Hp) as Hle. rewrite Hsum in Hle.
  assert (Hn' : 0 < inject_Z n) by (change 0 with (inject_Z 0); now rewrite <- Zlt_Qlt).
  assert (H0 : 0 <= inject_Z (c p))
    by (change 0 with (inject_Z 0); rewrite <- Zle_Qle; apply Hc0).
  assert (H1 : inject_Z (c p) <= inject_Z n) by (now rewrite <- Zle_Qle).
  split.
  - apply Qle_shift_div_l; lra.
  - apply Qle_shift_div_r; lra.
Qed.

Lemma sample_pagerank_values_in_unit_interval_witness :
  well_formed corpus_ring = true
  /\ (1 <= len corpus_ring)%Z
  /\ (0 < 7)%Z
  /\ exists r,
       sample_pagerank corpus_ring (1 # 2) 7 (fun t => Z.of_nat t # 9) = Ok r
       /\ forall p v, get r p = Some v -> 0 <= v <= 1.
Proof.
  split; [reflexivity|]. split; [vm_compute; discriminate|].
  split; [reflexivity|].
  apply (sample_pagerank_values_in_unit_interval corpus_ring (1 # 2) 7
           (fun t => Z.of_nat t # 9));
    [reflexivity | vm_compute; discriminate | reflexivity].
Defined.

(** X12.  On a well-formed graph and with a damping factor in (0,1), the
    transition model of a page of the graph gives every page of the graph
    a probability of at least [(1 - d)/N], which is positive: from every
    page the walk can go to every page. *)
Theorem transition_model_reaches_every_page (corpus : Corpus) (page : string)
  (d : Q) :
  well_formed corpus = true ->
  mem page (keys corpus) = true ->
  0 < d < 1 ->
  exists r,
    transition_model corpus page d = Ok r
    /\ forall p, In p (keys corpus) ->
         exists v, get r p = Some v
                   /\ (1 - d) / inject_Z (len corpus) <= v
                   /\ 0 < v.
Proof.
  intros Hwf Hpage Hd. apply mem_In in Hpage.
  pose proof (is_dict_keys _ (well_formed_is_dict _ Hwf)) as HK.
  destruct (get_Some_key corpus page Hpage) as [links Hget].
  assert (Hne : corpus <> []) by (eapply get_nonempty, Hget).
  pose proof (len_pos corpus Hne) as HN.
  assert (Hbase : 0 < (1 - d) / inject_Z (len corpus))
    by (apply Qlt_shift_div_l; lra).
  assert (Hinit : (1 - d) / inject_Z (len corpus) <= 1 / inject_Z (len corpus)).
  { unfold Qdiv. apply Qmult_le_compat_r; [lra|].
    pose proof (inv_len_nonneg corpus) as H. unfold Qdiv in H. lra. }
  destruct links as [|l links].
  - eexists. split; [now apply transition_sink|].
    intros p Hp. eexists. split; [now apply get_tabulate|]. split; lra.
  - destruct (well_formed_links _ _ _ Hwf Hget) as [Hnd Hincl].
    eexists. split.
    + apply (transition_links corpus page (l :: links));
        [assumption | assumption | discriminate | assumption | assumption].
    + intros p Hp. eexists. split; [now apply get_tabulate|].
      pose proof (len_pos (l :: links) ltac:(discriminate)) as HL.
      assert (0 < d / inject_Z (len (l :: links)))
        by (apply Qlt_shift_div_l; lra).
      cbv beta. destruct (mem p (l :: links)); split; lra.
Qed.

Lemma transition_model_reaches_every_page_witness :
  well_formed corpus_ring = true
  /\ mem "a" (keys corpus_ring) = true
  /\ 0 < 85 # 100 < 1
  /\ exists r,
       transition_model corpus_ring "a" (85 # 100) = Ok r
       /\ forall p, In p (keys corpus_ring) ->
            exists v, get r p = Some v
                      /\ (1 - (85 # 100)) / inject_Z (len corpus_ring) <= v
                      /\ 0 < v.
Proof.
  split; [reflexivity|]. split; [reflexivity|]. split; [split; reflexivity|].
  apply (transition_model_reaches_every_page corpus_ring "a" (85 # 100));
    [reflexivity | reflexivity | split; reflexivity].
Defined.

Lemma for_each_ext {A S : Type} (xs : list A) (body body' : S -> A -> res S) :
  (forall x acc, In x xs -> body acc x = body' acc x) ->
  forall acc, for_each xs body acc = for_each xs body' acc.
Proof.
  induction xs as [|x xs IH]; intros H acc; [reflexivity|].
  cbn [for_each]. rewrite (H x acc) by (now left).
  destruct (body' acc x) as [acc'|e]; [|reflexivity]. cbn [bind].
  apply IH. intros y acc0 Hy. apply H. now right.
Qed.

(** ** Graphs on which all pages rank alike *)

Lemma spec_new_rank_Qeq (corpus : Corpus) (d : Q) (x y : string -> Q)
  (page : string) :
  (forall k, x k == y k) ->
  spec_new_rank corpus d x page == spec_new_rank corpus d y page.
Proof.
  intros H. unfold spec_new_rank.
  rewrite (sumQ_map_ext corpus (contribution corpus x page)
             (contribution corpus y page)); [reflexivity|].
  intros e _. unfold contribution.
  destruct (len (snd e) =? 0)%Z; [now rewrite (H (fst e))|].
  destruct (mem page (snd e)); [now rewrite (H (fst e)) | reflexivity].
Qed.

Section Uniform.
Variable corpus : Corpus.
Variable d : Q.
Hypothesis Hfix :
  forall p, In p (keys corpus) ->
    spec_new_rank corpus d (fun _ => 1 / inject_Z (len corpus)) p
    == 1 / inject_Z (len corpus).

Lemma gs_uniform :
  forall (T : list string) (x : string -> Q) (go : bool),
  incl T (keys corpus) ->
  (forall k, x k == 1 / inject_Z (len corpus)) ->
  (forall k, gs_pass corpus d T x k == 1 / inject_Z (len corpus))
  /\ gs_go corpus d T x go = go.
Proof.
  induction T as [|t T IH]; intros x go Hincl Hx.
  - split; [exact Hx | reflexivity].
  - assert (Ht : In t (keys corpus)) by (apply Hincl; now left).
    assert (Hnew : new_rank corpus d x t == 1 / inject_Z (len corpus)).
    { rewrite new_rank_spec.
      rewrite (spec_new_rank_Qeq corpus d x
                 (fun _ => 1 / inject_Z (len corpus)) t Hx).
      now apply Hfix. }
    cbn [gs_pass gs_go].
    assert (Hgo : Qltb (1 # 1000) (Qabs (new_rank corpus d x t - x t)) = false).
    { apply Qltb_false. rewrite Hnew, (Hx t).
      setoid_replace (1 / inject_Z (len corpus) - 1 / inject_Z (len corpus))
        with 0 by ring.
      vm_compute. discriminate. }
    rewrite Hgo. apply IH.
    + intros k Hk. apply Hincl. now right.
    + intros k. unfold upd. destruct (String.eqb k t); [exact Hnew | apply Hx].
Qed.

Lemma uniform_run :
  NoDup (keys corpus) ->
  exists r,
    (forall fuel, (1 <= fuel)%nat -> iterate_pagerank fuel corpus d = Some (Ok r))
    /\ keys r = keys corpus
    /\ forall p, In p (keys corpus) ->
         rank_of r p == 1 / inject_Z (len corpus).
Proof.
  intros HK.
  destruct (gs_uniform (keys corpus) (fun _ => 1 / inject_Z (len corpus)) false
              (incl_refl _) (fun _ => Qeq_refl _)) as [Hpass Hgo].
  exists (tabulate (keys corpus)
            (gs_pass corpus d (keys corpus)
               (fun _ => 1 / inject_Z (len corpus)))).
  split; [|split].
  - intros fuel Hfuel. destruct fuel as [|fuel]; [lia|].
    rewrite iterate_pagerank_tabulate by assumption.
    cbn [gs_loop]. now rewrite Hgo.
  - apply keys_tabulate.
  - intros p Hp. rewrite rank_of_tabulate by assumption. apply Hpass.
Qed.

End Uniform.

(** X14.  With a damping factor from 0 to 1: when the equal ranks [1/N] are
    a fixed point of the update rule of the graph, the first pass of
    [iterate_pagerank] is its last, and the function returns a dict in
    which every page has the rank [1/N]. *)
Theorem iterate_pagerank_uniform_fixed_point (corpus : Corpus) (d : Q) :
  is_dict corpus = true ->
  0 <= d <= 1 ->
  (forall p, In p (keys corpus) ->
     spec_new_rank corpus d (fun _ => 1 / inject_Z (len corpus)) p
     == 1 / inject_Z (len corpus)) ->
  exists r,
    (forall fuel, (1 <= fuel)%nat -> iterate_pagerank fuel corpus d = Some (Ok r))
    /\ keys r = keys corpus
    /\ forall p, In p (keys corpus) ->
         rank_of r p == 1 / inject_Z (len corpus).
Proof.
  intros Hdict _ Hfix. apply uniform_run; [assumption | now apply is_dict_keys].
Qed.

Lemma iterate_pagerank_uniform_fixed_point_witness :
  is_dict [("a"%string, ["b"%string]); ("b"%string, ["a"%string])] = true
  /\ 0 <= 85 # 100 <= 1
  /\ exists r,
       (forall fuel, (1 <= fuel)%nat ->
          iterate_pagerank fuel
            [("a"%string, ["b"%string]); ("b"%string, ["a"%string])] (85 # 100)
          = Some (Ok r))
       /\ keys r = ["a"%string; "b"%string]
       /\ forall p, In p ["a"%string; "b"%string] -> rank_of r p == 1 / 2.
Proof.
  split; [reflexivity|]. split; [split; discriminate|].
  apply (iterate_pagerank_uniform_fixed_point
           [("a"%string, ["b"%string]); ("b"%string, ["a"%string])] (85 # 100));
    [reflexivity | split; discriminate |].
  intros p [<-|[<-|[]]]; vm_compute; reflexivity.
Defined.

(** X15.  On a graph in which no page has a link, [iterate_pagerank] returns
    after its first pass, for every damping factor from 0 to 1, a dict in
    which every page has the rank [1/N]. *)
Theorem iterate_pagerank_without_links (corpus : Corpus) (d : Q) :
  is_dict corpus = true ->
  0 <= d <= 1 ->
  forallb (fun links => (len links =? 0)%Z) (values corpus) = true ->
  exists r,
    (forall fuel, (1 <= fuel)%nat -> iterate_pagerank fuel corpus d = Some (Ok r))
    /\ keys r = keys corpus
    /\ forall p, In p (keys corpus) ->
         rank_of r p == 1 / inject_Z (len corpus).
Proof.
  intros Hdict _ Hsinks. apply uniform_run; [|now apply is_dict_keys].
  intros p Hp.
  assert (Hne : corpus <> []) by (intros E; rewrite E in Hp; contradiction).
  pose proof (len_pos corpus Hne) as HN.
  unfold spec_new_rank.
  rewrite (sumQ_map_ext corpus _
             (fun _ => 1 / inject_Z (len corpus) / inject_Z (len corpus))).
  - assert (Hc : forall (c : Q) (E : Corpus),
                sumQ (map (fun _ => c) E) == inject_Z (len E) * c).
    { intros c E. induction E as [|e E IH].
      - simpl. unfold len. simpl. ring.
      - cbn [map]. rewrite sumQ_cons, IH, len_cons. ring. }
    rewrite Hc. field. lra.
  - intros e He. unfold contribution.
    rewrite forallb_forall in Hsinks.
    rewrite (Hsinks (snd e)); [reflexivity|].
    unfold values. now apply in_map.
Qed.

Lemma iterate_pagerank_without_links_witness :
  is_dict [("a"%string, []); ("b"%string, []); ("c"%string, [])] = true
  /\ 0 <= 85 # 100 <= 1
  /\ forallb (fun links : list string => (len links =? 0)%Z)
       (values [("a"%string, []); ("b"%string, []); ("c"%string, [])]) = true
  /\ exists r,
       (forall fuel, (1 <= fuel)%nat ->
          iterate_pagerank fuel
            [("a"%string, []); ("b"%string, []); ("c"%string, [])] (85 # 100)
          = Some (Ok r))
       /\ keys r = ["a"%string; "b"%string; "c"%string]
       /\ forall p, In p ["a"%string; "b"%string; "c"%string] ->
            rank_of r p == 1 / 3.
Proof.
  split; [reflexivity|]. split; [split; discriminate|].
  split; [reflexivity|].
  apply (iterate_pagerank_without_links
           [("a"%string, []); ("b"%string, []); ("c"%string, [])] (85 # 100));
    [reflexivity | split; discriminate | reflexivity].
Defined.

(** ** The order in which a link set is enumerated, for the sampler *)

Lemma same_graph_get (c c' : Corpus) (p : string) :
  same_graph c c' ->
  (get c p = None /\ get c' p = None)
  \/ (exists l l', get c p = Some l /\ get c' p = Some l' /\ Permutation l l').
Proof.
  induction 1 as [|[k l] [k' l'] c c' [Hk HP] _ IH]; [now left|].
  cbn [fst snd] in Hk, HP. subst k'. cbn [get].
  destruct (String.eqb k p); [|exact IH].
  right. now exists l, l'.
Qed.

Lemma transition_model_same (corpus corpus' : Corpus) (page : string) (d : Q) :
  well_formed corpus = true ->
  same_graph corpus corpus' ->
  transition_model corpus page d = transition_model corpus' page d.
Proof.
  intros Hwf Hsame.
  pose proof (is_dict_keys _ (well_formed_is_dict _ Hwf)) as HK.
  pose proof (same_graph_keys _ _ Hsame) as Hkeys.
  pose proof (same_graph_len _ _ Hsame) as Hlen.
  assert (HK' : NoDup (keys corpus')) by (now rewrite <- Hkeys).
  destruct (same_graph_get corpus corpus' page Hsame)
    as [[Hn Hn']|[l [l' [Hl [Hl' HP]]]]].
  - unfold transition_model, getitem. now rewrite Hn, Hn'.
  - destruct l as [|a l].
    + apply Permutation_nil in HP. subst l'.
      rewrite (transition_sink corpus page d HK Hl).
      rewrite (transition_sink corpus' page d HK' Hl').
      now rewrite Hkeys, Hlen.
    + destruct (well_formed_links _ _ _ Hwf Hl) as [Hnd Hincl].
      assert (Hne' : l' <> []).
      { intros ->. apply Permutation_sym, Permutation_nil in HP. discriminate. }
      rewrite (transition_links corpus page (a :: l) d HK Hl
                 ltac:(discriminate) Hnd Hincl).
      rewrite (transition_links corpus' page l' d HK' Hl' Hne').
      * rewrite <- Hkeys, <- Hlen. f_equal. apply tabulate_ext. intros k _.
        now rewrite (mem_perm k _ _ HP), (len_perm _ _ HP).
      * eapply Permutation_NoDup; eassumption.
      * intros k Hk. rewrite <- Hkeys. apply Hincl.
        eapply Permutation_in; [apply Permutation_sym|]; eassumption.
Qed.

(** X16.  The result of [sample_pagerank] on a well-formed graph does not
    depend on the order in which the link sets are enumerated: with the
    same random draws, two dicts that hold the same pages in the same order
    and the same link sets give the same result. *)
Theorem sample_pagerank_ignores_set_order (corpus corpus' : Corpus) (d : Q)
  (n : Z) (rng : nat -> Q) :
  well_formed corpus = true ->
  same_graph corpus corpus' ->
  sample_pagerank corpus d n rng = sample_pagerank corpus' d n rng.
Proof.
  intros Hwf Hsame. unfold sample_pagerank.
  assert (Hinit : sample_init corpus = sample_init corpus')
    by (unfold sample_init; now rewrite (same_graph_keys _ _ Hsame)).
  rewrite Hinit.
  rewrite (for_each_ext (seq 0 (Z.to_nat n))
             (sample_step corpus d rng) (sample_step corpus' d rng)).
  - reflexivity.
  - intros t st _. unfold sample_step.
    rewrite (same_graph_keys _ _ Hsame).
    destruct (choices (keys corpus') (values (snd st)) (rng t)) as [p|e];
      [|reflexivity].
    cbn [bind]. destruct (getitem (fst st) p) as [c|e]; [|reflexivity].
    cbn [bind]. now rewrite (transition_model_same corpus corpus' p d Hwf Hsame).
Qed.

Lemma sample_pagerank_ignores_set_order_witness :
  well_formed corpus_ring = true
  /\ sample_pagerank corpus_ring (1 # 2) 5 (fun t => Z.of_nat t # 7)
     = sample_pagerank
         [("a"%string, ["b"%string]); ("b"%string, ["c"%string]);
          ("c"%string, ["b"; "a"]%string)]
         (1 # 2) 5 (fun t => Z.of_nat t # 7).
Proof.
  split; [reflexivity|].
  apply (sample_pagerank_ignores_set_order corpus_ring
           [("a"%string, ["b"%string]); ("b"%string, ["c"%string]);
            ("c"%string, ["b"; "a"]%string)]
           (1 # 2) 5 (fun t => Z.of_nat t # 7)); [reflexivity|].
  unfold same_graph, corpus_ring.
  repeat (constructor; [split; [reflexivity|]; cbn [snd];
                        first [apply Permutation_refl | apply perm_swap]|]).
  constructor.
Defined.
